(** * The quota iterator of the scheduler (scheduler/stack_ent.go)

    A shallow embedding of [QuotaIterator] and of the operations it is
    built from: [combinedResources], [SetTaskGroup], [SetJob], [Next] and
    [Reset].  The iterator wraps an upstream [FeasibleIterator]; when the
    job's namespace carries a quota it rejects every candidate whose
    placement would take the proposed usage above the quota limit.

    The package [structs] (resources, quota specifications, limits and
    usage records) is not part of the sources at hand.  Its types and the
    methods the iterator calls are modelled from the specification; each
    such definition says so in its comment. *)

From stdpp Require Import base option list strings gmap fin_maps.
From Stdlib Require Import ZArith Lia.

Local Open Scope Z_scope.

(** ** Results of code that can panic *)

(** A Go call either returns or panics (here: on a nil dereference). *)
Inductive Result (A : Type) : Type :=
| Ok (a : A)
| Panic.
Arguments Ok {A} a.
Arguments Panic {A}.

#[global] Instance Result_ret : MRet Result := fun A a => Ok a.
#[global] Instance Result_bind : MBind Result := fun A B f r =>
  match r with
  | Ok a => f a
  | Panic => Panic
  end.
#[global] Instance Result_fmap : FMap Result := fun A B f r =>
  match r with
  | Ok a => Ok (f a)
  | Panic => Panic
  end.

(** ** The package [structs], as far as the iterator uses it *)

Module structs.

(** Modelled from the spec: the type [structs.Resources] is missing.  The
    specification describes a resource vector with the dimensions CPU,
    memory, disk and network; the source names the disk field [DiskMB].
    The declarations of the fields are missing too; the quantities are
    integers, and the specification's sums are sums of integers. *)
Record Resources := mkResources {
  CPU : Z;
  MemoryMB : Z;
  DiskMB : Z;
  NetworkMBits : Z
}.

(** The dimensions a quota can be exhausted in. *)
Inductive Dimension := DimCPU | DimMemory | DimDisk | DimNetwork.

(** Modelled from the spec: the method [Resources.Add] is missing.  The
    aggregator's contract is the sum, dimension by dimension, and it has no
    failure modes, so a nil argument (a task with no declared request) adds
    nothing.  The receiver is passed and returned explicitly. *)
Definition Resources_Add (r : Resources) (delta : option Resources) : Resources :=
  match delta with
  | None => r
  | Some d =>
      {| CPU := CPU r + CPU d;
         MemoryMB := MemoryMB r + MemoryMB d;
         DiskMB := DiskMB r + DiskMB d;
         NetworkMBits := NetworkMBits r + NetworkMBits d |}
  end.

Record Task := mkTask {
  TaskName : string;
  TaskResources : option Resources      (* *structs.Resources *)
}.

Record EphemeralDisk := mkEphemeralDisk { SizeMB : Z }.

Record TaskGroup := mkTaskGroup {
  TaskGroupName : string;
  TGEphemeralDisk : EphemeralDisk;
  Tasks : list Task
}.

Record Job := mkJob {
  JobID : string;
  JobNamespace : string
}.

Record Node := mkNode { NodeID : string }.

Record Namespace := mkNamespace {
  NamespaceName : string;
  NamespaceQuota : string
}.

(** Modelled from the spec: the type [structs.QuotaLimit] is missing.  A
    limit is scoped to a region, carries a resource vector (the ceiling,
    in a quota specification; the consumed resources, in a usage record)
    and is keyed by the hash of its scoping dimensions. *)
Record QuotaLimit := mkQuotaLimit {
  Region : string;
  RegionLimit : Resources;
  Hash : string
}.

(** [*structs.QuotaLimit] objects that the scheduler writes to live in a
    heap, addressed by their index; a pointer is nil ([None]) or an
    address.  Objects are allocated at the end of the heap and never
    freed.  Go has no dangling pointers: an address outside the heap does
    not arise from the operations below, and reading one is modelled like
    a nil dereference. *)
Abbreviation addr := nat (only parsing).
Abbreviation Heap := (list QuotaLimit) (only parsing).

(** Modelled from the spec: the type [structs.QuotaSpec] is missing: a
    named quota and its limits.  The iterator never writes to the limits of
    a specification, so they are held by value. *)
Record QuotaSpec := mkQuotaSpec {
  QuotaName : string;
  Limits : list QuotaLimit
}.

(** Modelled from the spec: the type [structs.QuotaUsage] is missing: the
    consumed resources per limit, keyed like the limits.  [Used] is a
    [map[string]*QuotaLimit]: its values are addresses in the heap. *)
Record QuotaUsage := mkQuotaUsage {
  UsageName : string;
  Used : gmap string addr
}.

(** Modelled from the spec: the method [QuotaSpec.LimitsMap] is missing:
    the limit mapping keyed by scoping hash.  A later limit with the hash
    of an earlier one replaces it. *)
Definition LimitsMap (q : QuotaSpec) : gmap string QuotaLimit :=
  fold_left (fun m l => <[Hash l := l]> m) (Limits q) ∅.

(** Modelled from the spec: the method [QuotaLimit.Copy] is missing: a
    working copy of the limit's current value, a new object that shares
    nothing with the original.  A nil receiver has no value to copy; the
    source reads the field [Hash] of the result, which a nil result would
    fail as well, so the model panics at the call.  Whether the method
    itself panics on a nil receiver or returns nil is not known;
    [Next_on] below leaves it open. *)
Definition QuotaLimit_Copy (recv : option addr) (h : Heap) : Result (addr * Heap) :=
  match recv with
  | None => Panic
  | Some a =>
      match h !! a with
      | None => Panic
      | Some v => Ok (length h, h ++ [v])
      end
  end.

(** Modelled from the spec: the method [QuotaLimit.AddResource] is missing:
    it adds a footprint to the receiver's resources, in place. *)
Definition add_footprint (r : option Resources) (q : QuotaLimit) : QuotaLimit :=
  {| Region := Region q;
     RegionLimit := Resources_Add (RegionLimit q) r;
     Hash := Hash q |}.

Definition QuotaLimit_AddResource (recv : addr) (r : option Resources) (h : Heap)
  : Result Heap :=
  match h !! recv with
  | None => Panic
  | Some v => Ok (<[recv := add_footprint r v]> h)
  end.

(** The field read [q.Hash] through a pointer. *)
Definition QuotaLimit_Hash (recv : addr) (h : Heap) : Result string :=
  match h !! recv with
  | None => Panic
  | Some v => Ok (Hash v)
  end.

(** The dimensions in which a proposed value is above a ceiling. *)
Definition exceeded (limit proposed : Resources) : list Dimension :=
  (if decide (CPU limit < CPU proposed) then [DimCPU] else []) ++
  (if decide (MemoryMB limit < MemoryMB proposed) then [DimMemory] else []) ++
  (if decide (DiskMB limit < DiskMB proposed) then [DimDisk] else []) ++
  (if decide (NetworkMBits limit < NetworkMBits proposed) then [DimNetwork] else []).

(** Modelled from the spec: the method [QuotaLimit.Superset] is missing:
    true when the receiver's bounds are greater than or equal to the other
    limit's value in every dimension, and otherwise the dimensions that are
    exceeded.  It writes nothing.  For a nil receiver neither the source
    nor the specification says what the method does: a Go method runs on
    a nil pointer receiver and panics only where its body reads through
    it.  The branch for nil below stands for a body that does; it is a
    convention, taken only where [Next] does not return.  [Next_on] below
    leaves the behaviour open, and what is stated about nil receivers is
    stated there. *)
Definition QuotaLimit_Superset (recv : option QuotaLimit) (other : addr) (h : Heap)
  : Result (bool * list Dimension) :=
  match recv with
  | None => Panic
  | Some q =>
      match h !! other with
      | None => Panic
      | Some o =>
          let dimensions := exceeded (RegionLimit q) (RegionLimit o) in
          Ok (bool_decide (dimensions = []), dimensions)
      end
  end.

(** Modelled from the spec: the method [QuotaUsage.Copy] is missing:
    Actual Usage is copied into a new Proposed Usage value; every limit
    object of the copy is new, allocated after the objects that exist.
    The source reads the field [Used] of the result, so a nil receiver
    ends in a nil dereference. *)
Definition QuotaUsage_Copy (recv : option QuotaUsage) (h : Heap)
  : Result (QuotaUsage * Heap) :=
  match recv with
  | None => Panic
  | Some u =>
      let es := map_to_list (Used u) in
      match mapM (fun e : string * addr => h !! e.2) es with
      | None => Panic
      | Some vs =>
          Ok ({| UsageName := UsageName u;
                 Used := list_to_map (zip es.*1 (seq (length h) (length es))) |},
              h ++ vs)
      end
  end.

(** An allocation of the in-flight plan: its footprint and the hash of the
    limit it counts against. *)
Record PlannedAlloc := mkPlannedAlloc {
  AllocLimit : string;
  AllocResources : Resources
}.

Abbreviation Plan := (list PlannedAlloc) (only parsing).

(** Modelled from the spec: the function [structs.UpdateUsageFromPlan] is
    missing: it applies every allocation of the plan, incrementing the
    consumed resources of the relevant limit by the allocation's
    footprint, in place. *)
Definition charge (u : QuotaUsage) (h : Heap) (a : PlannedAlloc) : Heap :=
  match Used u !! AllocLimit a with
  | None => h
  | Some p => alter (add_footprint (Some (AllocResources a))) p h
  end.

Definition UpdateUsageFromPlan (u : QuotaUsage) (plan : Plan) (h : Heap) : Heap :=
  fold_left (charge u) plan h.

End structs.

Import structs.

(** ** The collaborators of the iterator *)

(** The upstream stage: the interface [FeasibleIterator], over the state
    of whatever stage implements it. *)
Class FeasibleIterator (S : Type) := {
  source_Next : S -> option Node * S;
  source_Reset : S -> S
}.

(** The errors [SetJob] builds with [fmt.Errorf], by format and arguments. *)
Inductive BuildError :=
| ErrNamespaceLookup (jobID ns err : string)
    (* "failed to lookup job %q namespace %q: %v" *)
| ErrUnknownNamespace (ns jobID : string)
    (* "unknown namespace %q referenced by job %q" *)
| ErrQuotaLookup (quota err : string)
    (* "failed to lookup quota %q: %v" *)
| ErrUnknownQuota (quota ns : string)
    (* "unknown quota %q referenced by namespace %q" *)
| ErrUsageLookup (quota err : string)
    (* "failed to lookup quota usage %q: %v" *)
| ErrUnknownUsage (quota : string).
    (* "unknown quota usage %q" *)

Inductive LogLevel := LevelError.

Record LogEntry := mkLogEntry {
  LogNamed : string;
  LogLevelOf : LogLevel;
  LogMsg : string;
  LogError : BuildError
}.

(** The state store: point lookups that return a value and an error. *)
Record StateEnterprise := mkState {
  NamespaceByName : string -> option Namespace * option string;
  QuotaSpecByName : string -> option QuotaSpec * option string;
  QuotaUsageByName : string -> option QuotaUsage * option string
}.

(** The scheduling context: the state store, the in-flight plan, what has
    been written to the logger, the metrics sink ([ExhaustQuota]) and the
    eligibility tracker ([SetQuotaLimitReached]), oldest first, and the
    heap of limit objects. *)
Record Context := mkContext {
  State : StateEnterprise;
  CtxPlan : Plan;
  Logger : list LogEntry;
  Metrics : list (list Dimension);
  Eligibility : list string;
  Objects : Heap
}.

Definition log_Error (e : LogEntry) (c : Context) : Context :=
  {| State := State c; CtxPlan := CtxPlan c; Logger := Logger c ++ [e];
     Metrics := Metrics c; Eligibility := Eligibility c; Objects := Objects c |}.

Definition ExhaustQuota (dimensions : list Dimension) (c : Context) : Context :=
  {| State := State c; CtxPlan := CtxPlan c; Logger := Logger c;
     Metrics := Metrics c ++ [dimensions]; Eligibility := Eligibility c;
     Objects := Objects c |}.

Definition SetQuotaLimitReached (name : string) (c : Context) : Context :=
  {| State := State c; CtxPlan := CtxPlan c; Logger := Logger c;
     Metrics := Metrics c; Eligibility := Eligibility c ++ [name];
     Objects := Objects c |}.

Definition set_Objects (h : Heap) (c : Context) : Context :=
  {| State := State c; CtxPlan := CtxPlan c; Logger := Logger c;
     Metrics := Metrics c; Eligibility := Eligibility c; Objects := h |}.

(** The outer scheduler revises the plan between iteration passes. *)
Definition set_Plan (p : Plan) (c : Context) : Context :=
  {| State := State c; CtxPlan := p; Logger := Logger c;
     Metrics := Metrics c; Eligibility := Eligibility c; Objects := Objects c |}.

(** ** The iterator *)

(** The struct [QuotaIterator].  The field [combinedResources] shares its
    name with the function below and is [iter_combinedResources] here. *)
Record QuotaIterator (S : Type) := mkQuotaIterator {
  ctx : Context;
  source : S;
  buildErr : option BuildError;
  iter_combinedResources : option Resources;
  job : option Job;
  quota : option QuotaSpec;
  quotaLimits : option (gmap string QuotaLimit);
  actUsage : option QuotaUsage;
  proposedUsage : option QuotaUsage;
  proposedLimit : option addr
}.
Arguments mkQuotaIterator {S}.
Arguments ctx {S}.
Arguments source {S}.
Arguments buildErr {S}.
Arguments iter_combinedResources {S}.
Arguments job {S}.
Arguments quota {S}.
Arguments quotaLimits {S}.
Arguments actUsage {S}.
Arguments proposedUsage {S}.
Arguments proposedLimit {S}.

Section Iterator.
Context {S : Type} `{FeasibleIterator S}.

Definition set_ctx (c : Context) (it : QuotaIterator S) : QuotaIterator S :=
  mkQuotaIterator c (source it) (buildErr it) (iter_combinedResources it) (job it)
    (quota it) (quotaLimits it) (actUsage it) (proposedUsage it) (proposedLimit it).

Definition set_source (s : S) (it : QuotaIterator S) : QuotaIterator S :=
  mkQuotaIterator (ctx it) s (buildErr it) (iter_combinedResources it) (job it)
    (quota it) (quotaLimits it) (actUsage it) (proposedUsage it) (proposedLimit it).

Definition set_buildErr (e : option BuildError) (it : QuotaIterator S) : QuotaIterator S :=
  mkQuotaIterator (ctx it) (source it) e (iter_combinedResources it) (job it)
    (quota it) (quotaLimits it) (actUsage it) (proposedUsage it) (proposedLimit it).

Definition set_combinedResources (r : option Resources) (it : QuotaIterator S)
  : QuotaIterator S :=
  mkQuotaIterator (ctx it) (source it) (buildErr it) r (job it)
    (quota it) (quotaLimits it) (actUsage it) (proposedUsage it) (proposedLimit it).

Definition set_job (j : option Job) (it : QuotaIterator S) : QuotaIterator S :=
  mkQuotaIterator (ctx it) (source it) (buildErr it) (iter_combinedResources it) j
    (quota it) (quotaLimits it) (actUsage it) (proposedUsage it) (proposedLimit it).

Definition set_quota (q : option QuotaSpec) (it : QuotaIterator S) : QuotaIterator S :=
  mkQuotaIterator (ctx it) (source it) (buildErr it) (iter_combinedResources it) (job it)
    q (quotaLimits it) (actUsage it) (proposedUsage it) (proposedLimit it).

Definition set_quotaLimits (m : option (gmap string QuotaLimit)) (it : QuotaIterator S)
  : QuotaIterator S :=
  mkQuotaIterator (ctx it) (source it) (buildErr it) (iter_combinedResources it) (job it)
    (quota it) m (actUsage it) (proposedUsage it) (proposedLimit it).

Definition set_actUsage (u : option QuotaUsage) (it : QuotaIterator S) : QuotaIterator S :=
  mkQuotaIterator (ctx it) (source it) (buildErr it) (iter_combinedResources it) (job it)
    (quota it) (quotaLimits it) u (proposedUsage it) (proposedLimit it).

Definition set_proposedUsage (u : option QuotaUsage) (it : QuotaIterator S)
  : QuotaIterator S :=
  mkQuotaIterator (ctx it) (source it) (buildErr it) (iter_combinedResources it) (job it)
    (quota it) (quotaLimits it) (actUsage it) u (proposedLimit it).

Definition set_proposedLimit (p : option addr) (it : QuotaIterator S) : QuotaIterator S :=
  mkQuotaIterator (ctx it) (source it) (buildErr it) (iter_combinedResources it) (job it)
    (quota it) (quotaLimits it) (actUsage it) (proposedUsage it) p.

(** [NewQuotaIterator] (lines 38-43): only [ctx] and [source] are set. *)
Definition NewQuotaIterator (c : Context) (s : S) : QuotaIterator S :=
  mkQuotaIterator c s None None None None None None None None.

(** [combinedResources] (lines 169-177): a fresh vector whose only set
    field is [DiskMB], to which the resources of every task are added in
    turn. *)
Definition combinedResources (tg : TaskGroup) : Resources :=
  fold_left (fun r task => Resources_Add r (TaskResources task)) (Tasks tg)
    {| CPU := 0; MemoryMB := 0;
       DiskMB := SizeMB (TGEphemeralDisk tg);
       NetworkMBits := 0 |}.

(** [SetTaskGroup] (lines 49-51). *)
Definition SetTaskGroup (tg : TaskGroup) (it : QuotaIterator S) : QuotaIterator S :=
  set_combinedResources (Some (combinedResources tg)) it.

(** The six failure paths of [SetJob] do the same two things: they set
    [buildErr] and log it, at error level, on the logger named "stack". *)
Definition fail_build (msg : string) (e : BuildError) (it : QuotaIterator S)
  : QuotaIterator S :=
  let it := set_buildErr (Some e) it in
  set_ctx (log_Error (mkLogEntry "stack" LevelError msg e) (ctx it)) it.

(** [SetJob] (lines 53-108).  A lookup returns a value and an error; the
    error is tested first, then the value. *)
Definition SetJob (j : Job) (it : QuotaIterator S) : QuotaIterator S :=
  let it := set_job (Some j) it in
  let state := State (ctx it) in
  match NamespaceByName state (JobNamespace j) with
  | (_, Some err) =>
      fail_build "scheduler.QuotaIterator"
        (ErrNamespaceLookup (JobID j) (JobNamespace j) err) it
  | (None, None) =>
      fail_build "scheduler.QuotaIterator "
        (ErrUnknownNamespace (JobNamespace j) (JobID j)) it
  | (Some namespace, None) =>
      if decide (NamespaceQuota namespace = "") then it
      else
        match QuotaSpecByName state (NamespaceQuota namespace) with
        | (_, Some err) =>
            fail_build "scheduler.QuotaIterator"
              (ErrQuotaLookup (NamespaceQuota namespace) err) it
        | (None, None) =>
            fail_build "scheduler.QuotaIterator"
              (ErrUnknownQuota (NamespaceQuota namespace) (NamespaceName namespace)) it
        | (Some q, None) =>
            match QuotaUsageByName state (NamespaceQuota namespace) with
            | (_, Some err) =>
                fail_build "scheduler.QuotaIterator"
                  (ErrUsageLookup (NamespaceQuota namespace) err) it
            | (None, None) =>
                fail_build "scheduler.QuotaIterator"
                  (ErrUnknownUsage (NamespaceQuota namespace)) it
            | (Some usage, None) =>
                if decide (size (Used usage) = 0%nat) then it
                else
                  let it := set_quota (Some q) it in
                  let it := set_quotaLimits (Some (LimitsMap q)) it in
                  set_actUsage (Some usage) it
            end
        end
  end.

(** [for _, l := range m]: Go visits every entry once, in an order that
    is not specified and may differ from one loop to the next.  A loop
    takes the order as a list of keys; [visit_order] says that the list is
    an order in which the map can be visited. *)
Definition visit_order (m : gmap string addr) (order : list string) : Prop :=
  order ≡ₚ (map_to_list m).*1.

Definition visited (m : gmap string addr) (order : list string) : list addr :=
  omap (fun k => m !! k) order.

(** [Next] (lines 113-145): the candidate of the source is passed through
    when there is none, when no quota applies or when [SetJob] failed;
    otherwise it is checked against the limit, on a copy of the proposed
    limit. *)
Definition Next (it : QuotaIterator S) : Result (option Node * QuotaIterator S) :=
  let '(option, s) := source_Next (source it) in
  let it := set_source s it in
  match option, quota it, buildErr it with
  | None, _, _ | _, None, _ | _, _, Some _ => Ok (option, it)
  | Some _, Some q, None =>
      '(proposedLimitCopy, h) ← QuotaLimit_Copy (proposedLimit it) (Objects (ctx it));
      h ← QuotaLimit_AddResource proposedLimitCopy (iter_combinedResources it) h;
      let it := set_ctx (set_Objects h (ctx it)) it in
      hash ← QuotaLimit_Hash proposedLimitCopy h;
      let quotaLimit := quotaLimits it ≫= (fun m => m !! hash) in
      '(superset, dimensions) ← QuotaLimit_Superset quotaLimit proposedLimitCopy h;
      if superset : bool then Ok (option, it)
      else
        let it := set_ctx (ExhaustQuota dimensions (ctx it)) it in
        let it := set_ctx (SetQuotaLimitReached (QuotaName q) (ctx it)) it in
        Ok (None, it)
  end.

(** [Reset] (lines 150-166); [order] is the order in which the loop over
    [proposedUsage.Used] visits the entries.  The copy has the keys of
    [actUsage.Used]. *)
Definition Reset (order : list string) (it : QuotaIterator S) : Result (QuotaIterator S) :=
  let it := set_source (source_Reset (source it)) it in
  match quota it with
  | None => Ok it
  | Some _ =>
      '(usage, h) ← QuotaUsage_Copy (actUsage it) (Objects (ctx it));
      let it := set_proposedUsage (Some usage) (set_ctx (set_Objects h (ctx it)) it) in
      let h := UpdateUsageFromPlan usage (CtxPlan (ctx it)) (Objects (ctx it)) in
      let it := set_ctx (set_Objects h (ctx it)) it in
      Ok (fold_left (fun it l => set_proposedLimit (Some l) it)
            (visited (Used usage) order) it)
  end.

(** ** Sequences of calls *)

(** What happens to a configured iterator: the calls of the outer
    algorithm, which also revises the plan of the context in between. *)
Inductive Call :=
| CallNext
| CallReset (order : list string)
| CallSetTaskGroup (tg : TaskGroup)
| PlanChange (p : Plan).

(** The calls made on the iterator, with the candidates [Next] returned. *)
Fixpoint run (cs : list Call) (it : QuotaIterator S)
  : Result (list (option Node) * QuotaIterator S) :=
  match cs with
  | [] => Ok ([], it)
  | CallNext :: cs =>
      '(o, it) ← Next it;
      '(os, it) ← run cs it;
      Ok (o :: os, it)
  | CallReset order :: cs => it ← Reset order it; run cs it
  | CallSetTaskGroup tg :: cs => run cs (SetTaskGroup tg it)
  | PlanChange p :: cs => run cs (set_ctx (set_Plan p (ctx it)) it)
  end.

(** What the upstream source alone returns for the same calls. *)
Fixpoint run_source (cs : list Call) (s : S) : list (option Node) * S :=
  match cs with
  | [] => ([], s)
  | CallNext :: cs =>
      let '(o, s) := source_Next s in
      let '(os, s) := run_source cs s in
      (o :: os, s)
  | CallReset _ :: cs => run_source cs (source_Reset s)
  | CallSetTaskGroup _ :: cs | PlanChange _ :: cs => run_source cs s
  end.

(** [n] calls of [Next] in a row. *)
Definition Nexts (n : nat) (it : QuotaIterator S)
  : Result (list (option Node) * QuotaIterator S) :=
  run (replicate n CallNext) it.

End Iterator.

(** ** Notions the statements below are phrased in *)

(** The sum of one dimension over the declared requests of some tasks. *)
Definition requested (dim : Resources -> Z) (ts : list Task) : Z :=
  foldr (fun task acc => from_option dim 0 (TaskResources task) + acc) 0 ts.

(** A state-store lookup fails: it returns an error, or nothing. *)
Definition lookup_fails {A : Type} (r : option A * option string) : Prop :=
  r.2 <> None \/ r.1 = None.

(** One of the lookups that [SetJob] makes for the job fails. *)
Inductive resolution_fails (state : StateEnterprise) (j : Job) : Prop :=
| namespace_fails :
    lookup_fails (NamespaceByName state (JobNamespace j)) ->
    resolution_fails state j
| quota_fails (ns : Namespace) :
    NamespaceByName state (JobNamespace j) = (Some ns, None) ->
    NamespaceQuota ns <> "" ->
    lookup_fails (QuotaSpecByName state (NamespaceQuota ns)) ->
    resolution_fails state j
| usage_fails (ns : Namespace) (q : QuotaSpec) :
    NamespaceByName state (JobNamespace j) = (Some ns, None) ->
    NamespaceQuota ns <> "" ->
    QuotaSpecByName state (NamespaceQuota ns) = (Some q, None) ->
    lookup_fails (QuotaUsageByName state (NamespaceQuota ns)) ->
    resolution_fails state j.

(** The three lookups succeed, and the usage record is [usage]. *)
Definition resolves_to (state : StateEnterprise) (j : Job)
    (q : QuotaSpec) (usage : QuotaUsage) : Prop :=
  exists ns,
    NamespaceByName state (JobNamespace j) = (Some ns, None) /\
    NamespaceQuota ns <> "" /\
    QuotaSpecByName state (NamespaceQuota ns) = (Some q, None) /\
    QuotaUsageByName state (NamespaceQuota ns) = (Some usage, None).

(** What [SetJob] can leave behind on an iterator that was not configured. *)
Inductive resolved {S : Type} (c : Context) (it : QuotaIterator S) : Prop :=
| resolved_failed (e : BuildError) (entry : LogEntry) :
    buildErr it = Some e ->
    quota it = None -> quotaLimits it = None -> actUsage it = None ->
    LogLevelOf entry = LevelError -> LogError entry = e ->
    ctx it = log_Error entry c ->
    resolved c it
| resolved_no_quota :
    buildErr it = None ->
    quota it = None -> quotaLimits it = None -> actUsage it = None ->
    ctx it = c ->
    resolved c it
| resolved_enforcing (q : QuotaSpec) (usage : QuotaUsage) :
    buildErr it = None ->
    quota it = Some q -> quotaLimits it = Some (LimitsMap q) ->
    actUsage it = Some usage -> size (Used usage) <> 0%nat ->
    ctx it = c ->
    resolved c it.

(** Every limit of a usage record is an object of the heap. *)
Definition usage_wf (h : Heap) (u : QuotaUsage) : Prop :=
  forall k a, Used u !! k = Some a -> is_Some (h !! a).

(** A usage record by value: the consumed resources per limit hash. *)
Definition usage_view (h : Heap) (u : QuotaUsage) : gmap string QuotaLimit :=
  omap (fun a => h !! a) (Used u).

(** What a plan makes of the consumed resources of the limit [k]. *)
Definition charged (k : string) (plan : Plan) (v : QuotaLimit) : QuotaLimit :=
  fold_left
    (fun v a =>
       if decide (AllocLimit a = k)
       then add_footprint (Some (AllocResources a)) v else v)
    plan v.

(** The usage projector in the words of the specification: every limit
    of Actual Usage, incremented by the allocations of the plan that count
    against it. *)
Definition projection (actual : gmap string QuotaLimit) (plan : Plan)
  : gmap string QuotaLimit :=
  map_imap (fun k v => Some (charged k plan v)) actual.

(** The views of an iterator: its Proposed Usage and its applicable limit,
    by value. *)
Definition proposed_view {S : Type} (it : QuotaIterator S)
  : option (gmap string QuotaLimit) :=
  usage_view (Objects (ctx it)) <$> proposedUsage it.

Definition limit_value {S : Type} (it : QuotaIterator S) : option QuotaLimit :=
  proposedLimit it ≫= (fun a => Objects (ctx it) !! a).

(** The limit evaluator in the words of the specification: add the
    footprint to the value of the applicable limit, look the ceiling up by
    the hash, and compare. *)
Definition evaluate (limits : option (gmap string QuotaLimit))
    (proposed : option QuotaLimit) (footprint : option Resources)
  : Result (bool * list Dimension) :=
  match proposed with
  | None => Panic
  | Some v =>
      let inclusive := add_footprint footprint v in
      match limits ≫= (fun m => m !! Hash inclusive) with
      | None => Panic
      | Some ceiling =>
          let dimensions := exceeded (RegionLimit ceiling) (RegionLimit inclusive) in
          Ok (bool_decide (dimensions = []), dimensions)
      end
  end.

(** The iterator once [Next] has made its working copy: one more object. *)
Definition with_copy {S : Type} (it : QuotaIterator S) : QuotaIterator S :=
  match limit_value it with
  | None => it
  | Some v =>
      mkQuotaIterator
        (set_Objects
           (Objects (ctx it) ++ [add_footprint (iter_combinedResources it) v])
           (ctx it))
        (source it) (buildErr it) (iter_combinedResources it) (job it)
        (quota it) (quotaLimits it) (actUsage it) (proposedUsage it)
        (proposedLimit it)
  end.

(** Two iterators that [Next] cannot tell apart, the source aside: the
    same resolution, footprint, ceilings and value of the applicable limit. *)
Definition same_evaluation {S : Type} (it1 it2 : QuotaIterator S) : Prop :=
  quota it1 = quota it2 /\ buildErr it1 = buildErr it2 /\
  quotaLimits it1 = quotaLimits it2 /\
  iter_combinedResources it1 = iter_combinedResources it2 /\
  limit_value it1 = limit_value it2.

(** ** A concrete upstream source and the scenarios of the specification *)

(** An upstream stage that yields the nodes of a list, one per call. *)
Record ListSource := mkListSource {
  all_nodes : list Node;
  remaining : list Node
}.

#[global] Instance ListSource_iterator : FeasibleIterator ListSource := {|
  source_Next s :=
    match remaining s with
    | [] => (None, s)
    | n :: ns => (Some n, mkListSource (all_nodes s) ns)
    end;
  source_Reset s := mkListSource (all_nodes s) (all_nodes s)
|}.

Definition list_source (ns : list Node) : ListSource := mkListSource ns ns.

Definition cpu (n : Z) : Resources :=
  {| CPU := n; MemoryMB := 0; DiskMB := 0; NetworkMBits := 0 |}.

(** A state store with the namespace "default", attached to the quota
    named [quota], whose specification is [spec] and whose usage record is
    [usage]. *)
Definition store (quota : string) (spec : option QuotaSpec) (usage : option QuotaUsage)
  : StateEnterprise :=
  {| NamespaceByName n :=
       if decide (n = "default") then (Some (mkNamespace "default" quota), None)
       else (None, None);
     QuotaSpecByName n := if decide (n = quota) then (spec, None) else (None, None);
     QuotaUsageByName n := if decide (n = quota) then (usage, None) else (None, None) |}.

Definition scenario_spec : QuotaSpec :=
  mkQuotaSpec "q" [mkQuotaLimit "global" (cpu 1000) "h"].

Definition scenario_usage : QuotaUsage := mkQuotaUsage "q" {[ "h" := 0%nat ]}.

(** Scenarios 1 and 2: limit {CPU:1000}, actual usage {CPU:400}, a plan
    that contributes {CPU:200}. *)
Definition scenario_ctx : Context :=
  {| State := store "q" (Some scenario_spec) (Some scenario_usage);
     CtxPlan := [mkPlannedAlloc "h" (cpu 200)];
     Logger := []; Metrics := []; Eligibility := [];
     Objects := [mkQuotaLimit "global" (cpu 400) "h"] |}.

Definition scenario_job : Job := mkJob "example" "default".

(** A task group of one task that asks for [n] CPU. *)
Definition scenario_tg (n : Z) : TaskGroup :=
  mkTaskGroup "web" (mkEphemeralDisk 0) [mkTask "server" (Some (cpu n))].

Definition node1 : Node := mkNode "node1".

(** A usage record that holds two limits, for two regions. *)
Definition two_limits_spec : QuotaSpec :=
  mkQuotaSpec "q"
    [mkQuotaLimit "east" (cpu 1000) "a"; mkQuotaLimit "west" (cpu 100) "b"].

Definition two_limits_usage : QuotaUsage :=
  mkQuotaUsage "q" {[ "a" := 0%nat; "b" := 1%nat ]}.

Definition two_limits_ctx : Context :=
  {| State := store "q" (Some two_limits_spec) (Some two_limits_usage);
     CtxPlan := [];
     Logger := []; Metrics := []; Eligibility := [];
     Objects := [mkQuotaLimit "east" (cpu 400) "a";
                 mkQuotaLimit "west" (cpu 90) "b"] |}.

(** An iterator configured for a job and a task group of 50 CPU. *)
Definition two_limits : QuotaIterator ListSource :=
  SetTaskGroup (scenario_tg 50)
    (SetJob scenario_job (NewQuotaIterator two_limits_ctx (list_source [node1]))).

(** The iterator of scenarios 1 and 2 before the first [Reset]. *)
Definition scenario (n : Z) : QuotaIterator ListSource :=
  SetTaskGroup (scenario_tg n)
    (SetJob scenario_job (NewQuotaIterator scenario_ctx (list_source [node1]))).

(** The iterator [Reset] leaves behind. *)
Definition after_Reset (order : list string) (it : QuotaIterator ListSource)
  : QuotaIterator ListSource :=
  match Reset order it with
  | Ok it' => it'
  | Panic => it
  end.

(** The iterator of scenarios 1 and 2 after the first [Reset]. *)
Definition scenario_reset (n : Z) : QuotaIterator ListSource :=
  after_Reset ["h"] (scenario n).

(** What it would mean that a call of [Reset], from [it] to [it'], was
    treated as an internal error: something was logged, and enforcement is
    off afterwards. *)
Definition treated_as_internal_error {S : Type} (it it' : QuotaIterator S) : Prop :=
  (length (Logger (ctx it)) < length (Logger (ctx it')))%nat /\
  (quota it' = None \/ buildErr it' <> None).

(** The iterator [Next] leaves behind. *)
Definition after_Next (it : QuotaIterator ListSource) : QuotaIterator ListSource :=
  match Next it with
  | Ok (_, it') => it'
  | Panic => it
  end.

(** A context with the state store [state] and nothing else. *)
Definition ctx_of (state : StateEnterprise) (objects : list QuotaLimit) : Context :=
  {| State := state; CtxPlan := []; Logger := []; Metrics := [];
     Eligibility := []; Objects := objects |}.

(** Scenario 3: the namespace names no quota. *)
Definition no_quota_ctx : Context := ctx_of (store "" None None) [].

(** Scenario 4: the usage record holds no limit. *)
Definition empty_usage : QuotaUsage := mkQuotaUsage "q" ∅.

Definition empty_usage_ctx : Context :=
  ctx_of (store "q" (Some scenario_spec) (Some empty_usage)) [].

(** Scenario 5: the namespace names a quota that has no usage record. *)
Definition missing_usage_ctx : Context :=
  ctx_of (store "q" (Some scenario_spec) None) [].



(** The iterators of scenarios 3 to 5 once [SetJob] has run. *)
Definition no_quota_iterator : QuotaIterator ListSource :=
  SetJob scenario_job (NewQuotaIterator no_quota_ctx (list_source [node1])).

Definition empty_usage_iterator : QuotaIterator ListSource :=
  SetJob scenario_job (NewQuotaIterator empty_usage_ctx (list_source [node1])).

Definition missing_usage_iterator : QuotaIterator ListSource :=
  SetJob scenario_job (NewQuotaIterator missing_usage_ctx (list_source [node1])).

(** The iterator with two limits after [Reset], for the two orders in
    which the loop can visit them, and after a second [Reset]. *)
Definition two_limits_ab : QuotaIterator ListSource :=
  after_Reset ["a"; "b"] two_limits.

Definition two_limits_ba : QuotaIterator ListSource :=
  after_Reset ["b"; "a"] two_limits.

Definition two_limits_ba_ab : QuotaIterator ListSource :=
  after_Reset ["a"; "b"] two_limits_ba.

(** ** Notions for the behaviour of whole call sequences *)

(** The outcome of the limit evaluation that [Next] would make now. *)
Definition verdict {S : Type} (it : QuotaIterator S) : Result (bool * list Dimension) :=
  evaluate (quotaLimits it) (limit_value it) (iter_combinedResources it).

(** The number of candidates among what a source returned. *)
Definition candidates (ups : list (option Node)) : nat :=
  length (omap id ups).




(** The number of candidates of the source ([ups]) in whose place the
    iterator returned none ([os]). *)
Fixpoint dropped (ups os : list (option Node)) : nat :=
  match ups, os with
  | Some _ :: ups, None :: os => Datatypes.S (dropped ups os)
  | _ :: ups, _ :: os => dropped ups os
  | _, _ => 0%nat
  end.

(** A state store whose every lookup succeeds, used on an iterator that
    is configured a second time. *)
Definition second_job : Job := mkJob "second" "default".


Definition reconfigured_after_failure : QuotaIterator ListSource :=
  SetJob second_job
    (set_ctx scenario_ctx missing_usage_iterator).

(** The iterator a call sequence leaves behind, and what it returned. *)
Definition after_run (cs : list Call) (it : QuotaIterator ListSource)
  : QuotaIterator ListSource :=
  match run cs it with
  | Ok (_, it') => it'
  | Panic => it
  end.

Definition returned (cs : list Call) (it : QuotaIterator ListSource)
  : list (option Node) :=
  match run cs it with
  | Ok (os, _) => os
  | Panic => []
  end.

(** A pass over the candidates, a revised plan, and a second pass. *)
Definition two_passes : list Call :=
  [CallReset ["h"]; CallNext; CallNext;
   PlanChange [mkPlannedAlloc "h" (cpu 100)]; CallReset ["h"]; CallNext].

(** Two task groups with the same tasks in a different order. *)
Definition tg_ab : TaskGroup :=
  mkTaskGroup "web" (mkEphemeralDisk 10)
    [mkTask "a" (Some (cpu 100)); mkTask "b" None;
     mkTask "c" (Some (mkResources 5 64 20 1))].

Definition tg_ba : TaskGroup :=
  mkTaskGroup "web" (mkEphemeralDisk 10)
    [mkTask "c" (Some (mkResources 5 64 20 1)); mkTask "a" (Some (cpu 100));
     mkTask "b" None].

(** ** The missing methods on a nil receiver *)

(** What the methods of [structs] do when [Next] calls them on a nil
    receiver is decided by code that is not at hand, so it is a parameter.
    [Copy] of no limit yields no object: it panics or returns nil.
    [AddResource] panics or returns.  [Superset] panics or returns a
    verdict, which may depend on the limit it is given. *)
Record NilReceivers := mkNilReceivers {
  Copy_nil : Result unit;
  AddResource_nil : Result unit;
  Superset_nil : QuotaLimit -> Result (bool * list Dimension)
}.

(** The three methods with a receiver that may be nil. *)
Definition Copy_on (nb : NilReceivers) (recv : option addr) (h : Heap)
  : Result (option addr * Heap) :=
  match recv with
  | None => _ ← Copy_nil nb; Ok (None, h)
  | Some _ => '(a, h) ← QuotaLimit_Copy recv h; Ok (Some a, h)
  end.

Definition AddResource_on (nb : NilReceivers) (recv : option addr)
    (r : option Resources) (h : Heap) : Result Heap :=
  match recv with
  | None => _ ← AddResource_nil nb; Ok h
  | Some a => QuotaLimit_AddResource a r h
  end.

Definition Superset_on (nb : NilReceivers) (recv : option QuotaLimit)
    (other : addr) (h : Heap) : Result (bool * list Dimension) :=
  match recv with
  | Some _ => QuotaLimit_Superset recv other h
  | None =>
      match h !! other with
      | None => Panic
      | Some o => Superset_nil nb o
      end
  end.

(** [Next] (lines 113-145) with the behaviour of the missing methods on a
    nil receiver left open.  The read of [proposedLimitCopy.Hash] (line
    130) is in the source: it is a field read through the pointer, and
    panics when the pointer is nil. *)
Definition Next_on {S : Type} `{FeasibleIterator S} (nb : NilReceivers)
    (it : QuotaIterator S) : Result (option Node * QuotaIterator S) :=
  let '(option, s) := source_Next (source it) in
  let it := set_source s it in
  match option, quota it, buildErr it with
  | None, _, _ | _, None, _ | _, _, Some _ => Ok (option, it)
  | Some _, Some q, None =>
      '(proposedLimitCopy, h) ← Copy_on nb (proposedLimit it) (Objects (ctx it));
      h ← AddResource_on nb proposedLimitCopy (iter_combinedResources it) h;
      let it := set_ctx (set_Objects h (ctx it)) it in
      match proposedLimitCopy with
      | None => Panic
      | Some copy =>
          hash ← QuotaLimit_Hash copy h;
          let quotaLimit := quotaLimits it ≫= (fun m => m !! hash) in
          '(superset, dimensions) ← Superset_on nb quotaLimit copy h;
          if superset : bool then Ok (option, it)
          else
            let it := set_ctx (ExhaustQuota dimensions (ctx it)) it in
            let it := set_ctx (SetQuotaLimitReached (QuotaName q) (ctx it)) it in
            Ok (None, it)
      end
  end.

(** The limit evaluation of [Next_on], by value: as [evaluate], but with
    a missing ceiling the verdict is what [Superset] makes of its nil
    receiver. *)
Definition evaluate_on (nb : NilReceivers) (limits : option (gmap string QuotaLimit))
    (proposed : option QuotaLimit) (footprint : option Resources)
  : Result (bool * list Dimension) :=
  match proposed with
  | None => Panic
  | Some v =>
      let inclusive := add_footprint footprint v in
      match limits ≫= (fun m => m !! Hash inclusive) with
      | None => Superset_nil nb inclusive
      | Some ceiling =>
          let dimensions := exceeded (RegionLimit ceiling) (RegionLimit inclusive) in
          Ok (bool_decide (dimensions = []), dimensions)
      end
  end.

(** Two behaviours: every method reads through its receiver; no method
    does, and [Superset] on a nil receiver finds nothing exceeded. *)
Definition dereferencing : NilReceivers :=
  mkNilReceivers Panic Panic (fun _ => Panic).


(** * Properties *)

(** ** The resource aggregator *)

Lemma fold_Add_dim (ts : list Task) (r : Resources) :
  let r' := fold_left (fun r task => Resources_Add r (TaskResources task)) ts r in
  CPU r' = CPU r + requested CPU ts /\
  MemoryMB r' = MemoryMB r + requested MemoryMB ts /\
  DiskMB r' = DiskMB r + requested DiskMB ts /\
  NetworkMBits r' = NetworkMBits r + requested NetworkMBits ts.
Proof.
  revert r. induction ts as [|t ts IH]; intros r; simpl.
  - lia.
  - destruct (IH (Resources_Add r (TaskResources t))) as (Hc & Hm & Hd & Hn).
    rewrite Hc, Hm, Hd, Hn.
    destruct (TaskResources t) as [d|]; simpl; lia.
Qed.

(** C8: the footprint of a task group is, in every dimension, the sum of
    the requests of its tasks, plus the ephemeral disk size in the disk
    dimension; [SetTaskGroup] stores it and changes nothing else. *)
Theorem combinedResources_is_sum (tg : TaskGroup) :
  CPU (combinedResources tg) = requested CPU (Tasks tg) /\
  MemoryMB (combinedResources tg) = requested MemoryMB (Tasks tg) /\
  DiskMB (combinedResources tg)
    = SizeMB (TGEphemeralDisk tg) + requested DiskMB (Tasks tg) /\
  NetworkMBits (combinedResources tg) = requested NetworkMBits (Tasks tg) /\
  forall (S : Type) (it : QuotaIterator S),
    iter_combinedResources (SetTaskGroup tg it) = Some (combinedResources tg) /\
    ctx (SetTaskGroup tg it) = ctx it /\
    source (SetTaskGroup tg it) = source it /\
    buildErr (SetTaskGroup tg it) = buildErr it /\
    job (SetTaskGroup tg it) = job it /\
    quota (SetTaskGroup tg it) = quota it /\
    quotaLimits (SetTaskGroup tg it) = quotaLimits it /\
    actUsage (SetTaskGroup tg it) = actUsage it /\
    proposedUsage (SetTaskGroup tg it) = proposedUsage it /\
    proposedLimit (SetTaskGroup tg it) = proposedLimit it.
Proof.
  unfold combinedResources.
  pose proof (fold_Add_dim (Tasks tg)
    {| CPU := 0; MemoryMB := 0; DiskMB := SizeMB (TGEphemeralDisk tg);
       NetworkMBits := 0 |}) as H.
  simpl in H. destruct H as (Hc & Hm & Hd & Hn).
  repeat split; try assumption.
Qed.

(** ** Resolution of the quota by [SetJob] *)

Section Resolution.
Context {S : Type} `{FeasibleIterator S}.

Lemma fail_build_resolved (msg : string) (e : BuildError) (it : QuotaIterator S) :
  quota it = None -> quotaLimits it = None -> actUsage it = None ->
  resolved (ctx it) (fail_build msg e it).
Proof.
  intros Hq Hl Hu.
  by apply (resolved_failed _ _ e (mkLogEntry "stack" LevelError msg e)).
Qed.

Lemma SetJob_resolved (j : Job) (it : QuotaIterator S) :
  buildErr it = None -> quota it = None ->
  quotaLimits it = None -> actUsage it = None ->
  resolved (ctx it) (SetJob j it).
Proof.
  intros He Hq Hl Hu. unfold SetJob.
  set (it1 := set_job (Some j) it).
  assert (Hc : ctx it = ctx it1) by reflexivity. rewrite Hc.
  assert (He1 : buildErr it1 = None) by exact He.
  assert (Hq1 : quota it1 = None) by exact Hq.
  assert (Hl1 : quotaLimits it1 = None) by exact Hl.
  assert (Hu1 : actUsage it1 = None) by exact Hu.
  clearbody it1. clear Hc.
  destruct (NamespaceByName _ _) as [[ns|] [err|]];
    try (apply fail_build_resolved; assumption).
  destruct (decide _); [by apply resolved_no_quota|].
  destruct (QuotaSpecByName _ _) as [[q|] [err|]];
    try (apply fail_build_resolved; assumption).
  destruct (QuotaUsageByName _ _) as [[u|] [err|]];
    try (apply fail_build_resolved; assumption).
  destruct (decide _); [by apply resolved_no_quota|].
  by eapply resolved_enforcing.
Qed.

Lemma SetJob_fails (j : Job) (it : QuotaIterator S) :
  resolution_fails (State (ctx it)) j ->
  exists msg e, SetJob j it = fail_build msg e (set_job (Some j) it).
Proof.
  intros Hf. unfold SetJob. simpl.
  destruct Hf as [Hn | ns Hn Hne Hs | ns q Hn Hne Hs Hu].
  - destruct (NamespaceByName _ _) as [[ns|] [err|]]; eauto.
    destruct Hn as [Hn | Hn]; simpl in Hn; congruence.
  - rewrite Hn. rewrite decide_False by assumption.
    destruct (QuotaSpecByName _ _) as [[q|] [err|]]; eauto.
    destruct Hs as [Hs | Hs]; simpl in Hs; congruence.
  - rewrite Hn. rewrite decide_False by assumption. rewrite Hs.
    destruct (QuotaUsageByName _ _) as [[u|] [err|]]; eauto.
    destruct Hu as [Hu | Hu]; simpl in Hu; congruence.
Qed.

(** Without a quota, [Next] is the source's [Next]. *)
Lemma Next_no_quota (it : QuotaIterator S) :
  quota it = None ->
  Next it = Ok ((source_Next (source it)).1,
                set_source (source_Next (source it)).2 it).
Proof.
  intros Hq. unfold Next.
  destruct (source_Next (source it)) as [o s]. simpl.
  rewrite Hq. by destruct o.
Qed.

Lemma Reset_no_quota (order : list string) (it : QuotaIterator S) :
  quota it = None ->
  Reset order it = Ok (set_source (source_Reset (source it)) it).
Proof. intros Hq. unfold Reset. simpl. by rewrite Hq. Qed.

(** Without a quota, any sequence of calls returns what the source alone
    returns; nothing is logged, no metric and no eligibility is recorded,
    and the resolution stays as it is. *)
Lemma run_no_quota (cs : list Call) (it : QuotaIterator S) :
  quota it = None ->
  exists it',
    run cs it = Ok ((run_source cs (source it)).1, it') /\
    source it' = (run_source cs (source it)).2 /\
    Logger (ctx it') = Logger (ctx it) /\
    Metrics (ctx it') = Metrics (ctx it) /\
    Eligibility (ctx it') = Eligibility (ctx it) /\
    buildErr it' = buildErr it /\ quota it' = None.
Proof.
  revert it. induction cs as [|c cs IH]; intros it Hq; simpl.
  - by exists it.
  - destruct c as [|order|tg|p].
    + rewrite Next_no_quota by assumption. simpl.
      destruct (source_Next (source it)) as [o s] eqn:Hn. simpl.
      destruct (IH (set_source s it) Hq) as (it' & Hr & Hs & Hrest).
      simpl in *. rewrite Hr.
      destruct (run_source cs s) as [os s'] eqn:Hrs. simpl in *.
      by exists it'.
    + rewrite Reset_no_quota by assumption. simpl.
      destruct (IH (set_source (source_Reset (source it)) it) Hq)
        as (it' & Hr & Hrest).
      by exists it'.
    + destruct (IH (SetTaskGroup tg it) Hq) as (it' & Hr & Hrest).
      by exists it'.
    + destruct (IH (set_ctx (set_Plan p (ctx it)) it) Hq) as (it' & Hr & Hrest).
      by exists it'.
Qed.

(** C10: after [SetJob] on a new iterator the resolution is all or
    nothing: a build error leaves [quota], [quotaLimits] and [actUsage]
    nil, and [quota] is set exactly when [quotaLimits] and [actUsage] are;
    so the test of [buildErr] in [Next] adds nothing to the test of
    [quota], and the iterator enforces exactly when the three are set. *)
Theorem SetJob_all_or_nothing (c : Context) (s : S) (j : Job) :
  let it := SetJob j (NewQuotaIterator c s) in
  (buildErr it <> None ->
     quota it = None /\ quotaLimits it = None /\ actUsage it = None) /\
  (quota it <> None <-> quotaLimits it <> None /\ actUsage it <> None) /\
  (quota it = None <-> quotaLimits it = None /\ actUsage it = None) /\
  (quota it = None \/ buildErr it <> None <-> quota it = None) /\
  (quota it <> None /\ buildErr it = None <->
     quota it <> None /\ quotaLimits it <> None /\ actUsage it <> None).
Proof.
  intros it.
  destruct (SetJob_resolved j (NewQuotaIterator c s)) as
    [e entry He Hq Hl Hu _ _ _ | He Hq Hl Hu _ | q u He Hq Hl Hu _ _];
    try reflexivity; fold it in He, Hq, Hl, Hu;
    rewrite He, Hq, Hl, Hu; intuition congruence.
Qed.

(** C2: when a lookup of [SetJob] fails, a build error is recorded and
    logged at error level, and from then on every [Next] returns the
    candidate of the source, with no [ExhaustQuota] and no
    [SetQuotaLimitReached] call. *)
Theorem resolution_failure_fails_open (c : Context) (s : S) (j : Job) :
  resolution_fails (State c) j ->
  let it := SetJob j (NewQuotaIterator c s) in
  (exists e entry,
      buildErr it = Some e /\ Logger (ctx it) = Logger c ++ [entry] /\
      LogLevelOf entry = LevelError /\ LogError entry = e) /\
  forall cs, exists it',
      run cs it = Ok ((run_source cs s).1, it') /\
      Metrics (ctx it') = Metrics c /\ Eligibility (ctx it') = Eligibility c.
Proof.
  intros Hf it.
  destruct (SetJob_fails j (NewQuotaIterator c s) Hf) as (msg & e & Hit).
  fold it in Hit. split.
  - exists e, (mkLogEntry "stack" LevelError msg e). by rewrite Hit.
  - intros cs.
    destruct (run_no_quota cs it) as (it' & Hr & _ & _ & Hm & Hel & _).
    { by rewrite Hit. }
    exists it'. rewrite Hr, Hm, Hel, Hit. done.
Qed.

(** C4: for a job whose namespace exists and names no quota, whatever is
    called and in whatever order, [Next] returns what the source returns;
    no build error is recorded, nothing is logged, and no quota metric or
    eligibility is recorded. *)
Theorem no_quota_passes_through (c : Context) (s : S) (j : Job) (ns : Namespace) :
  NamespaceByName (State c) (JobNamespace j) = (Some ns, None) ->
  NamespaceQuota ns = "" ->
  let it := SetJob j (NewQuotaIterator c s) in
  buildErr it = None /\ ctx it = c /\
  forall cs, exists it',
      run cs it = Ok ((run_source cs s).1, it') /\
      buildErr it' = None /\ Logger (ctx it') = Logger c /\
      Metrics (ctx it') = Metrics c /\ Eligibility (ctx it') = Eligibility c.
Proof.
  intros Hn Hq it.
  assert (Hit : it = set_job (Some j) (NewQuotaIterator c s)).
  { unfold it, SetJob. simpl. rewrite Hn. by rewrite decide_True. }
  rewrite Hit. repeat split.
  intros cs.
  destruct (run_no_quota cs (set_job (Some j) (NewQuotaIterator c s)))
    as (it' & Hr & _ & Hl & Hm & Hel & He & _); [done|].
  by exists it'.
Qed.

(** C7: when the three lookups succeed and the usage record holds no
    limit, enforcement is off: no build error, nothing logged, and [Next]
    returns what the source returns, whatever the task group. *)
Theorem empty_usage_passes_through (c : Context) (s : S) (j : Job)
    (q : QuotaSpec) (usage : QuotaUsage) :
  resolves_to (State c) j q usage ->
  Used usage = ∅ ->
  let it := SetJob j (NewQuotaIterator c s) in
  buildErr it = None /\ ctx it = c /\
  forall cs, exists it',
      run cs it = Ok ((run_source cs s).1, it') /\
      buildErr it' = None /\ Logger (ctx it') = Logger c /\
      Metrics (ctx it') = Metrics c /\ Eligibility (ctx it') = Eligibility c.
Proof.
  intros (ns & Hn & Hne & Hs & Hu) Hempty it.
  assert (Hit : it = set_job (Some j) (NewQuotaIterator c s)).
  { unfold it, SetJob. simpl. rewrite Hn. rewrite decide_False by assumption.
    rewrite Hs, Hu. rewrite decide_True; [done|].
    rewrite Hempty. apply map_size_empty. }
  rewrite Hit. repeat split.
  intros cs.
  destruct (run_no_quota cs (set_job (Some j) (NewQuotaIterator c s)))
    as (it' & Hr & _ & Hl & Hm & Hel & He & _); [done|].
  by exists it'.
Qed.

End Resolution.

(** ** The limit evaluation of [Next] *)

Section Evaluation.
Context {S : Type} `{FeasibleIterator S}.

Lemma heap_lookup_new (h : list QuotaLimit) (v : QuotaLimit) :
  (h ++ [v]) !! length h = Some v.
Proof. by apply list_lookup_middle. Qed.

Lemma heap_insert_new (h : list QuotaLimit) (v w : QuotaLimit) :
  <[length h := w]> (h ++ [v]) = h ++ [w].
Proof. rewrite insert_app_r_alt by lia. by rewrite Nat.sub_diag. Qed.

(** An enforcing [Next] computes [evaluate] on the values in the heap, and
    leaves nothing behind but its working copy. *)
Lemma Next_enforcing (it : QuotaIterator S) (n : Node) (s : S) (q : QuotaSpec) :
  source_Next (source it) = (Some n, s) ->
  quota it = Some q -> buildErr it = None ->
  Next it =
    match evaluate (quotaLimits it) (limit_value it) (iter_combinedResources it) with
    | Panic => Panic
    | Ok (true, _) => Ok (Some n, with_copy (set_source s it))
    | Ok (false, dimensions) =>
        let it' := with_copy (set_source s it) in
        Ok (None,
            set_ctx (SetQuotaLimitReached (QuotaName q)
                       (ExhaustQuota dimensions (ctx it'))) it')
    end.
Proof.
  intros Hn Hq He. unfold Next. rewrite Hn.
  cbn [set_source quota buildErr proposedLimit ctx iter_combinedResources quotaLimits].
  rewrite Hq, He.
  unfold with_copy, evaluate, limit_value.
  cbn [set_source quota buildErr proposedLimit ctx iter_combinedResources quotaLimits
       source job actUsage proposedUsage].
  destruct (proposedLimit it) as [a|] eqn:Hp; cbn [mbind option_bind]; [|reflexivity].
  unfold QuotaLimit_Copy.
  destruct (Objects (ctx it) !! a) as [v|] eqn:Hv; [|reflexivity].
  cbn [mbind Result_bind].
  unfold QuotaLimit_AddResource. rewrite heap_lookup_new.
  cbn [mbind Result_bind]. rewrite heap_insert_new.
  unfold QuotaLimit_Hash. rewrite heap_lookup_new.
  cbn [mbind Result_bind add_footprint Hash].
  unfold QuotaLimit_Superset.
  cbn [set_ctx set_source quotaLimits].
  destruct (quotaLimits it ≫= _) as [ceiling|]; [|reflexivity].
  rewrite heap_lookup_new. cbn [mbind Result_bind add_footprint RegionLimit].
  unfold set_ctx, set_source. cbn. rewrite Hp.
  destruct (bool_decide _); reflexivity.
Qed.

Lemma limit_value_with_copy (it : QuotaIterator S) :
  limit_value (with_copy it) = limit_value it.
Proof.
  unfold with_copy. destruct (limit_value it) as [v|] eqn:Hv; [|done].
  unfold limit_value in *. simpl.
  destruct (proposedLimit it) as [a|]; simpl in *; [|done].
  by apply lookup_app_l_Some.
Qed.

Lemma same_evaluation_with_copy (it : QuotaIterator S) :
  same_evaluation it (with_copy it).
Proof.
  unfold same_evaluation. rewrite limit_value_with_copy.
  unfold with_copy. by destruct (limit_value it).
Qed.

Lemma Objects_with_copy (it : QuotaIterator S) :
  exists new, Objects (ctx (with_copy it)) = Objects (ctx it) ++ new.
Proof.
  unfold with_copy. destruct (limit_value it) as [v|].
  - by eexists.
  - exists []. by rewrite app_nil_r.
Qed.

(** What one call of [Next] leaves unchanged, whatever it returns. *)
Lemma Next_preserves (it it' : QuotaIterator S) (o : option Node) :
  Next it = Ok (o, it') ->
  source it' = (source_Next (source it)).2 /\
  buildErr it' = buildErr it /\
  iter_combinedResources it' = iter_combinedResources it /\
  job it' = job it /\ quota it' = quota it /\
  quotaLimits it' = quotaLimits it /\ actUsage it' = actUsage it /\
  proposedUsage it' = proposedUsage it /\
  proposedLimit it' = proposedLimit it /\
  State (ctx it') = State (ctx it) /\ CtxPlan (ctx it') = CtxPlan (ctx it) /\
  Logger (ctx it') = Logger (ctx it) /\
  limit_value it' = limit_value it /\
  exists new, Objects (ctx it') = Objects (ctx it) ++ new.
Proof.
  intros HN.
  destruct (source_Next (source it)) as [o' s] eqn:Hn.
  assert (Hpass : Next it = Ok (o', set_source s it) ->
    source it' = s /\ buildErr it' = buildErr it /\
    iter_combinedResources it' = iter_combinedResources it /\
    job it' = job it /\ quota it' = quota it /\
    quotaLimits it' = quotaLimits it /\ actUsage it' = actUsage it /\
    proposedUsage it' = proposedUsage it /\
    proposedLimit it' = proposedLimit it /\
    State (ctx it') = State (ctx it) /\ CtxPlan (ctx it') = CtxPlan (ctx it) /\
    Logger (ctx it') = Logger (ctx it) /\
    limit_value it' = limit_value it /\
    exists new, Objects (ctx it') = Objects (ctx it) ++ new).
  { intros HN'. rewrite HN in HN'. injection HN' as -> ->.
    repeat split. exists []. simpl. by rewrite app_nil_r. }
  destruct o' as [n|]; [|apply Hpass; unfold Next; by rewrite Hn].
  destruct (quota it) as [q|] eqn:Hq;
    [|apply Hpass; unfold Next; rewrite Hn; simpl; by rewrite Hq].
  destruct (buildErr it) as [e|] eqn:He;
    [apply Hpass; unfold Next; rewrite Hn; simpl; by rewrite Hq, He|].
  clear Hpass. rewrite (Next_enforcing it n s q Hn Hq He) in HN. simpl.
  pose proof (limit_value_with_copy (set_source s it)) as Hlv.
  pose proof (Objects_with_copy (set_source s it)) as Hobj.
  assert (Hwc : source (with_copy (set_source s it)) = s /\
    buildErr (with_copy (set_source s it)) = buildErr it /\
    iter_combinedResources (with_copy (set_source s it)) = iter_combinedResources it /\
    job (with_copy (set_source s it)) = job it /\
    quota (with_copy (set_source s it)) = quota it /\
    quotaLimits (with_copy (set_source s it)) = quotaLimits it /\
    actUsage (with_copy (set_source s it)) = actUsage it /\
    proposedUsage (with_copy (set_source s it)) = proposedUsage it /\
    proposedLimit (with_copy (set_source s it)) = proposedLimit it /\
    State (ctx (with_copy (set_source s it))) = State (ctx it) /\
    CtxPlan (ctx (with_copy (set_source s it))) = CtxPlan (ctx it) /\
    Logger (ctx (with_copy (set_source s it))) = Logger (ctx it)).
  { unfold with_copy. by destruct (limit_value (set_source s it)). }
  destruct Hwc as (W1 & W2 & W3 & W4 & W5 & W6 & W7 & W8 & W9 & W10 & W11 & W12).
  rewrite He, Hq in *.
  destruct (evaluate _ _ _) as [[[] dims]|]; [| |done];
    injection HN as <- <-; unfold limit_value in *; simpl in *;
    rewrite ?W1, ?W2, ?W3, ?W4, ?W5, ?W6, ?W7, ?W8, ?W9, ?W10, ?W11, ?W12;
    repeat split; try assumption; try congruence.
Qed.

(** The pass-through branch of [Next]. *)
Lemma Next_pass (it : QuotaIterator S) (o : option Node) (s : S) :
  source_Next (source it) = (o, s) ->
  o = None \/ quota it = None \/ buildErr it <> None ->
  Next it = Ok (o, set_source s it).
Proof.
  intros Hn Hp. unfold Next. rewrite Hn. simpl.
  destruct o as [n|]; [|done].
  destruct (quota it) as [q|]; [|done].
  destruct (buildErr it) as [e|]; [done|].
  destruct Hp as [|[|]]; congruence.
Qed.

Lemma Next_same_decision (it1 it2 : QuotaIterator S) :
  same_evaluation it1 it2 -> source it1 = source it2 ->
  fst <$> Next it1 = fst <$> Next it2.
Proof.
  intros (Hq & He & Hl & Hr & Hv) Hs.
  destruct (source_Next (source it1)) as [o s] eqn:Hn1.
  assert (Hn2 : source_Next (source it2) = (o, s)) by by rewrite <- Hs.
  destruct o as [n|].
  2:{ rewrite (Next_pass it1 None s), (Next_pass it2 None s); auto. }
  destruct (quota it1) as [q|] eqn:Hq1.
  2:{ rewrite (Next_pass it1 (Some n) s), (Next_pass it2 (Some n) s); auto;
      right; left; congruence. }
  destruct (buildErr it1) as [e|] eqn:He1.
  { rewrite (Next_pass it1 (Some n) s), (Next_pass it2 (Some n) s); auto;
      right; right; congruence. }
  rewrite (Next_enforcing it1 n s q), (Next_enforcing it2 n s q)
    by congruence.
  rewrite <- Hl, <- Hr, <- Hv.
  by destruct (evaluate _ _ _) as [[[] dims]|].
Qed.

Lemma same_evaluation_Next (it it' : QuotaIterator S) (o : option Node) :
  Next it = Ok (o, it') -> same_evaluation it it'.
Proof.
  intros HN. apply Next_preserves in HN.
  unfold same_evaluation. intuition congruence.
Qed.

Lemma Nexts_S (n : nat) (it : QuotaIterator S) :
  Nexts (Datatypes.S n) it =
    '(o, it') ← Next it; '(os, it'') ← Nexts n it'; Ok (o :: os, it'').
Proof. reflexivity. Qed.

(** Iterators that [Next] cannot tell apart return the same candidates
    for the same candidates of the source, however often it is called. *)
Lemma Nexts_same_decisions (n : nat) (it1 it2 : QuotaIterator S) :
  same_evaluation it1 it2 -> source it1 = source it2 ->
  fst <$> Nexts n it1 = fst <$> Nexts n it2.
Proof.
  revert it1 it2. induction n as [|n IH]; intros it1 it2 Hsame Hs; [done|].
  rewrite !Nexts_S.
  pose proof (Next_same_decision it1 it2 Hsame Hs) as Hd.
  destruct (Next it1) as [[o1 it1']|] eqn:H1, (Next it2) as [[o2 it2']|] eqn:H2;
    simpl in Hd; try discriminate; [|done].
  injection Hd as ->. simpl.
  assert (Hsame' : same_evaluation it1' it2').
  { apply same_evaluation_Next in H1 as (A1 & A2 & A3 & A4 & A5).
    apply same_evaluation_Next in H2 as (B1 & B2 & B3 & B4 & B5).
    destruct Hsame as (C1 & C2 & C3 & C4 & C5).
    unfold same_evaluation. repeat split; congruence. }
  assert (Hs' : source it1' = source it2').
  { apply Next_preserves in H1 as (-> & _).
    apply Next_preserves in H2 as (-> & _). by rewrite Hs. }
  specialize (IH it1' it2' Hsame' Hs').
  destruct (Nexts n it1') as [[os1 ?]|], (Nexts n it2') as [[os2 ?]|];
    simpl in *; congruence.
Qed.

Lemma usage_view_app (h new : list QuotaLimit) (u : QuotaUsage) :
  usage_wf h u -> usage_view (h ++ new) u = usage_view h u.
Proof.
  intros Hwf. apply map_eq. intros k. unfold usage_view.
  rewrite !lookup_omap.
  destruct (Used u !! k) as [a|] eqn:Hk; simpl; [|done].
  destruct (Hwf k a Hk) as [v Hv]. rewrite Hv.
  by apply lookup_app_l_Some.
Qed.

Lemma same_evaluation_set_source (it1 it2 : QuotaIterator S) (s : S) :
  same_evaluation it1 it2 ->
  same_evaluation (set_source s it1) (set_source s it2).
Proof. done. Qed.

(** C5: [Next] writes to none of [proposedLimit], [proposedUsage],
    [actUsage] and the stored footprint, nor to any limit object that
    existed before the call: the value of the applicable limit and of the
    usage records is what it was, and later calls of [Next] decide as they
    would have decided before, whether the candidate was rejected or not. *)
Theorem Next_copy_isolation (it it' : QuotaIterator S) (o : option Node) :
  Next it = Ok (o, it') ->
  proposedLimit it' = proposedLimit it /\
  proposedUsage it' = proposedUsage it /\
  actUsage it' = actUsage it /\
  iter_combinedResources it' = iter_combinedResources it /\
  quotaLimits it' = quotaLimits it /\
  (exists new, Objects (ctx it') = Objects (ctx it) ++ new) /\
  limit_value it' = limit_value it /\
  (forall u, usage_wf (Objects (ctx it)) u ->
     usage_view (Objects (ctx it')) u = usage_view (Objects (ctx it)) u) /\
  forall (s : S) (n : nat),
    fst <$> Nexts n (set_source s it') = fst <$> Nexts n (set_source s it).
Proof.
  intros HN.
  pose proof (same_evaluation_Next _ _ _ HN) as Hsame.
  destruct (Next_preserves _ _ _ HN)
    as (_ & _ & Hr & _ & _ & Hl & Hu & Hpu & Hp & _ & _ & _ & Hv & new & Hobj).
  repeat split; try assumption.
  - by exists new.
  - intros u Hwf. rewrite Hobj. by apply usage_view_app.
  - intros s n. symmetry.
    apply Nexts_same_decisions; [|done].
    by apply same_evaluation_set_source.
Qed.

End Evaluation.

(** ** The usage projector of [Reset] *)

(** The addresses [QuotaUsage.Copy] gives to the entries of a record. *)
Lemma copy_lookup (es : list (string * nat)) (base : nat) (k : string) (a' : nat) :
  NoDup es.*1 ->
  (list_to_map (zip es.*1 (seq base (length es))) : gmap string nat) !! k = Some a'
  <-> exists i a, es !! i = Some (k, a) /\ a' = (base + i)%nat.
Proof.
  intros Hnd.
  assert (Hlen : length es.*1 = length (seq base (length es))).
  { by rewrite length_fmap, length_seq. }
  rewrite <- elem_of_list_to_map by (rewrite fst_zip; [done | lia]).
  rewrite list_elem_of_lookup. split.
  - intros (i & Hi). apply lookup_zip_with_Some in Hi as (x & y & Heq & Hx & Hy).
    injection Heq as -> ->.
    rewrite list_lookup_fmap in Hx.
    destruct (es !! i) as [[k' a]|] eqn:He; simplify_eq/=.
    apply lookup_seq in Hy as (-> & _). by exists i, a.
  - intros (i & a & Hi & ->). exists i.
    apply lookup_zip_with_Some. exists k, (base + i)%nat. split; [done|]. split.
    + rewrite list_lookup_fmap, Hi. done.
    + apply lookup_seq. split; [done|]. by eapply lookup_lt_Some.
Qed.

Lemma QuotaUsage_Copy_spec (u : QuotaUsage) (h : list QuotaLimit) :
  usage_wf h u ->
  exists vs pu,
    QuotaUsage_Copy (Some u) h = Ok (pu, h ++ vs) /\
    length vs = size (Used u) /\
    UsageName pu = UsageName u /\
    (forall k a', Used pu !! k = Some a' ->
       (length h <= a')%nat /\
       exists a v, Used u !! k = Some a /\ h !! a = Some v /\
                   (h ++ vs) !! a' = Some v) /\
    (forall k a, Used u !! k = Some a -> is_Some (Used pu !! k)) /\
    (forall k1 k2 a', Used pu !! k1 = Some a' -> Used pu !! k2 = Some a' -> k1 = k2).
Proof.
  intros Hwf. unfold QuotaUsage_Copy.
  set (es := map_to_list (Used u)).
  assert (Hnd : NoDup es.*1) by apply NoDup_fst_map_to_list.
  assert (Hes : forall k a, (k, a) ∈ es <-> Used u !! k = Some a).
  { intros k a. apply elem_of_map_to_list. }
  destruct (mapM (fun e : string * nat => h !! e.2) es) as [vs|] eqn:Hm.
  2:{ exfalso. assert (His : is_Some (mapM (fun e : string * nat => h !! e.2) es)).
      { apply mapM_is_Some. apply Forall_forall. intros [k a] Hin.
        simpl. apply (Hwf k a). by apply Hes. }
      rewrite Hm in His. by destruct His. }
  apply mapM_Some in Hm.
  eexists vs, _. split; [reflexivity|]. simpl.
  split.
  { rewrite <- (Forall2_length _ _ _ Hm). apply length_map_to_list. }
  split; [done|].
  split; [|split].
  - intros k a' Hk. apply copy_lookup in Hk as (i & a & Hi & ->); [|done].
    split; [lia|].
    destruct (Forall2_lookup_l _ _ _ _ _ Hm Hi) as (v & Hv & Hhv). simpl in Hhv.
    exists a, v. split; [|split]; [| done |].
    + apply Hes. apply list_elem_of_lookup. by exists i.
    + rewrite lookup_app_r by lia.
      replace (length h + i - length h)%nat with i by lia. done.
  - intros k a Hk. apply Hes in Hk. apply list_elem_of_lookup in Hk as (i & Hi).
    exists (length h + i)%nat. apply copy_lookup; [done|]. by exists i, a.
  - intros k1 k2 a' H1 H2.
    apply copy_lookup in H1 as (i1 & a1 & Hi1 & ->); [|done].
    apply copy_lookup in H2 as (i2 & a2 & Hi2 & Heq); [|done].
    assert (i1 = i2) as -> by lia. congruence.
Qed.

(** What [UpdateUsageFromPlan] does to one object of the heap. *)
Lemma charge_lookup (u : QuotaUsage) (h : list QuotaLimit) (al : PlannedAlloc) (a : nat) :
  charge u h al !! a =
    match Used u !! AllocLimit al with
    | Some p =>
        if decide (p = a)
        then add_footprint (Some (AllocResources al)) <$> h !! a
        else h !! a
    | None => h !! a
    end.
Proof.
  unfold charge. destruct (Used u !! AllocLimit al) as [p|]; [|done].
  rewrite list_lookup_alter.
  by destruct (decide (p = a)) as [->|Hne].
Qed.

Lemma UpdateUsageFromPlan_length (u : QuotaUsage) (plan : list PlannedAlloc)
    (h : list QuotaLimit) :
  length (UpdateUsageFromPlan u plan h) = length h.
Proof.
  unfold UpdateUsageFromPlan. revert h.
  induction plan as [|al plan IH]; intros h; simpl; [done|].
  rewrite IH. unfold charge.
  destruct (Used u !! AllocLimit al); [apply length_alter|done].
Qed.

(** The object of the limit [k] is charged with the allocations that
    count against [k], provided no other limit shares the object. *)
Lemma UpdateUsageFromPlan_limit (u : QuotaUsage) (plan : list PlannedAlloc)
    (h : list QuotaLimit) (k : string) (a : nat) :
  Used u !! k = Some a ->
  (forall k', Used u !! k' = Some a -> k' = k) ->
  UpdateUsageFromPlan u plan h !! a = charged k plan <$> h !! a.
Proof.
  intros Hk Hinj. unfold UpdateUsageFromPlan, charged. revert h.
  induction plan as [|al plan IH]; intros h; simpl.
  - by destruct (h !! a).
  - rewrite IH, charge_lookup.
    destruct (decide (AllocLimit al = k)) as [Heq|Hne].
    + rewrite Heq, Hk. rewrite decide_True by done.
      by destruct (h !! a).
    + destruct (Used u !! AllocLimit al) as [p|] eqn:Hp; [|by destruct (h !! a)].
      rewrite decide_False; [by destruct (h !! a)|].
      intros ->. by apply Hne, Hinj.
Qed.

(** Objects that are not limits of the record are left alone. *)
Lemma UpdateUsageFromPlan_frame (u : QuotaUsage) (plan : list PlannedAlloc)
    (h : list QuotaLimit) (a : nat) :
  (forall k, Used u !! k <> Some a) ->
  UpdateUsageFromPlan u plan h !! a = h !! a.
Proof.
  intros Hout. unfold UpdateUsageFromPlan. revert h.
  induction plan as [|al plan IH]; intros h; simpl; [done|].
  rewrite IH, charge_lookup.
  destruct (Used u !! AllocLimit al) as [p|] eqn:Hp; [|done].
  destruct (decide (p = a)) as [->|Hne]; [|done].
  by destruct (Hout (AllocLimit al)).
Qed.

Section Projection.
Context {S : Type} `{FeasibleIterator S}.

(** The loop of [Reset] caches the limit it visits last, if any. *)
Lemma range_proposedLimit (ls : list nat) (it : QuotaIterator S) :
  fold_left (fun it l => set_proposedLimit (Some l) it) ls it
  = set_proposedLimit (from_option Some (proposedLimit it) (last ls)) it.
Proof.
  revert it. induction ls as [|l ls IH]; intros it.
  - by destruct it.
  - simpl fold_left. rewrite IH. simpl proposedLimit.
    rewrite last_cons. by destruct (last ls).
Qed.

(** When every key of the order is in the map, the last limit visited is
    the limit of the last key. *)
Lemma last_visited (m : gmap string nat) (order : list string) :
  (forall k, k ∈ order -> is_Some (m !! k)) ->
  last (visited m order) = last order ≫= (fun k => m !! k).
Proof.
  unfold visited. induction order as [|k order IH]; intros Hin; [done|].
  destruct (Hin k) as [a Ha]; [left|].
  cbn [omap list_omap]. rewrite Ha. rewrite !last_cons.
  rewrite IH by (intros; apply Hin; by right).
  destruct (last order) as [k'|] eqn:Hl; simpl; [|done].
  destruct (Hin k') as [a' Ha']; [right; by apply last_Some_elem_of|].
  by rewrite Ha'.
Qed.

Lemma visit_order_elem (m : gmap string nat) (order : list string) (k : string) :
  visit_order m order -> k ∈ order <-> is_Some (m !! k).
Proof.
  unfold visit_order. intros ->.
  rewrite list_elem_of_fmap. split.
  - intros ([k' a] & -> & Hin). apply elem_of_map_to_list in Hin. by exists a.
  - intros [a Ha]. exists (k, a). split; [done|]. by apply elem_of_map_to_list.
Qed.

(** [Reset] on an enforcing iterator: a fresh copy of Actual Usage, charged
    with the plan, becomes Proposed Usage; nothing that existed is written
    to; nothing is logged and the resolution stays as it is; the limit
    visited last is cached. *)
Lemma Reset_spec (order : list string) (it : QuotaIterator S)
    (q : QuotaSpec) (u : QuotaUsage) :
  quota it = Some q -> actUsage it = Some u ->
  usage_wf (Objects (ctx it)) u ->
  exists it' pu new,
    Reset order it = Ok it' /\
    source it' = source_Reset (source it) /\
    buildErr it' = buildErr it /\
    iter_combinedResources it' = iter_combinedResources it /\
    job it' = job it /\ quota it' = quota it /\
    quotaLimits it' = quotaLimits it /\ actUsage it' = actUsage it /\
    State (ctx it') = State (ctx it) /\ CtxPlan (ctx it') = CtxPlan (ctx it) /\
    Logger (ctx it') = Logger (ctx it) /\ Metrics (ctx it') = Metrics (ctx it) /\
    Eligibility (ctx it') = Eligibility (ctx it) /\
    Objects (ctx it') = Objects (ctx it) ++ new /\
    length new = size (Used u) /\
    proposedUsage it' = Some pu /\
    (forall k, is_Some (Used pu !! k) <-> is_Some (Used u !! k)) /\
    usage_view (Objects (ctx it')) pu
      = projection (usage_view (Objects (ctx it)) u) (CtxPlan (ctx it)) /\
    proposedLimit it'
      = from_option Some (proposedLimit it) (last (visited (Used pu) order)).
Proof.
  intros Hq Hu Hwf.
  destruct (QuotaUsage_Copy_spec u _ Hwf)
    as (vs & pu & Hcopy & Hlen & Hname & Hpu & Hdom & Hinj).
  set (h := Objects (ctx it)) in *.
  set (h' := UpdateUsageFromPlan pu (CtxPlan (ctx it)) (h ++ vs)).
  assert (Hframe : forall a, (a < length h)%nat -> h' !! a = h !! a).
  { intros a Hlt. unfold h'. rewrite UpdateUsageFromPlan_frame.
    - by apply lookup_app_l.
    - intros k Hk. apply Hpu in Hk as (Hge & _). lia. }
  assert (Hnew : h' = h ++ drop (length h) h').
  { rewrite <- (take_drop (length h) h') at 1. f_equal.
    apply list_eq. intros a.
    destruct (decide (a < length h)%nat) as [Hlt|Hge].
    - rewrite lookup_take_lt by done. by apply Hframe.
    - rewrite lookup_take_ge by lia. symmetry. apply lookup_ge_None. lia. }
  eexists _, pu, (drop (length h) h').
  split.
  { unfold Reset. simpl. rewrite Hq. rewrite Hu. fold h. rewrite Hcopy.
    cbn [mbind Result_bind]. simpl. rewrite range_proposedLimit. reflexivity. }
  simpl. fold h h'.
  repeat split; try done.
  - rewrite length_drop. unfold h'.
    rewrite UpdateUsageFromPlan_length, length_app. lia.
  - intros [a' Ha']. apply Hpu in Ha' as (_ & a & v & Ha & _). by exists a.
  - intros [a Ha]. by apply (Hdom k a).
  - apply map_eq. intros k. unfold usage_view, projection.
    rewrite map_lookup_imap, !lookup_omap.
    destruct (Used pu !! k) as [a'|] eqn:Hk; simpl.
    + destruct (Hpu k a' Hk) as (Hge & a & v & Ha & Hv & Hv').
      rewrite Ha. simpl. rewrite Hv. simpl.
      unfold h'. rewrite (UpdateUsageFromPlan_limit pu _ _ k a' Hk).
      * by rewrite Hv'.
      * intros k' Hk'. by apply (Hinj k' k a').
    + destruct (Used u !! k) as [a|] eqn:Ha; [|done].
      destruct (Hdom k a Ha) as [a' Ha']. congruence.
Qed.

(** With the entries visited in [order], the applicable limit after
    [Reset] is the projected usage of the key visited last. *)
Lemma Reset_limit_value (order : list string) (it : QuotaIterator S)
    (q : QuotaSpec) (u : QuotaUsage) :
  quota it = Some q -> actUsage it = Some u ->
  usage_wf (Objects (ctx it)) u ->
  visit_order (Used u) order ->
  exists it',
    Reset order it = Ok it' /\
    forall k, last order = Some k ->
      limit_value it'
        = projection (usage_view (Objects (ctx it)) u) (CtxPlan (ctx it)) !! k.
Proof.
  intros Hq Hu Hwf Hord.
  destruct (Reset_spec order it q u Hq Hu Hwf)
    as (it' & pu & new & HR & _ & _ & _ & _ & _ & _ & _ & _ & _ & _ & _ & _
        & _ & _ & _ & Hkeys & Hview & Hlim).
  exists it'. split; [done|]. intros k Hk.
  unfold limit_value. rewrite Hlim, <- Hview.
  rewrite last_visited, Hk.
  - simpl. unfold usage_view. rewrite lookup_omap.
    assert (His : is_Some (Used pu !! k)).
    { apply Hkeys. apply (visit_order_elem _ order); [done|].
      by apply last_Some_elem_of. }
    destruct His as [a' ->]. done.
  - intros k' Hin. apply Hkeys. by apply (visit_order_elem _ order).
Qed.

Lemma visit_order_single (m : gmap string nat) (o1 o2 : list string) :
  size m = 1%nat -> visit_order m o1 -> visit_order m o2 -> o1 = o2.
Proof.
  unfold visit_order. intros Hsz H1 H2.
  assert (Hl : length (map_to_list m).*1 = 1%nat).
  { by rewrite length_fmap, length_map_to_list. }
  destruct ((map_to_list m).*1) as [|k [|? ?]]; try discriminate.
  apply Permutation_singleton_r in H1, H2. congruence.
Qed.

(** C6, as amended: two calls of [Reset] in a row on an enforcing
    iterator both return, and build the same Proposed Usage: the
    projection of Actual Usage under the plan.  When the usage record
    holds exactly one limit, or the two loops visit the entries in the same
    order, the applicable limit is the same too, and [Next] then decides
    the same for the same candidates of the source. *)
Theorem Reset_twice (o1 o2 : list string) (it : QuotaIterator S)
    (q : QuotaSpec) (u : QuotaUsage) :
  quota it = Some q -> actUsage it = Some u ->
  usage_wf (Objects (ctx it)) u ->
  visit_order (Used u) o1 -> visit_order (Used u) o2 ->
  exists it1 it2,
    Reset o1 it = Ok it1 /\ Reset o2 it1 = Ok it2 /\
    proposed_view it1
      = Some (projection (usage_view (Objects (ctx it)) u) (CtxPlan (ctx it))) /\
    proposed_view it2 = proposed_view it1 /\
    (size (Used u) = 1%nat \/ o1 = o2 ->
       limit_value it2 = limit_value it1 /\
       forall (s : S) (n : nat),
         fst <$> Nexts n (set_source s it2) = fst <$> Nexts n (set_source s it1)).
Proof.
  intros Hq Hu Hwf Ho1 Ho2.
  destruct (Reset_spec o1 it q u Hq Hu Hwf)
    as (it1 & pu1 & new1 & HR1 & _ & He1 & Hr1 & _ & Hq1 & Hl1 & Hu1 & _ & Hp1
        & _ & _ & _ & Hobj1 & Hlen1 & Hpu1 & _ & Hview1 & Hlim1).
  assert (Hwf1 : usage_wf (Objects (ctx it1)) u).
  { intros k a Hk. destruct (Hwf k a Hk) as [v Hv]. exists v.
    rewrite Hobj1. by apply lookup_app_l_Some. }
  rewrite Hq in Hq1. rewrite Hu in Hu1.
  destruct (Reset_spec o2 it1 q u Hq1 Hu1 Hwf1)
    as (it2 & pu2 & new2 & HR2 & _ & He2 & Hr2 & _ & Hq2 & Hl2 & Hu2 & _ & Hp2
        & _ & _ & _ & Hobj2 & Hlen2 & Hpu2 & _ & Hview2 & Hlim2).
  assert (Hact : usage_view (Objects (ctx it1)) u = usage_view (Objects (ctx it)) u).
  { rewrite Hobj1. by apply usage_view_app. }
  exists it1, it2. split; [done|]. split; [done|].
  unfold proposed_view. rewrite Hpu1, Hpu2. simpl.
  rewrite Hview1, Hview2, Hact, Hp1.
  split; [done|]. split; [done|].
  intros Hsame.
  assert (Ho : o1 = o2).
  { destruct Hsame as [Hsz|]; [|done]. by eapply visit_order_single. }
  subst o2.
  assert (Hlv : limit_value it2 = limit_value it1).
  { destruct (last o1) as [k|] eqn:Hlast.
    - destruct (Reset_limit_value o1 it q u Hq Hu Hwf Ho1) as (it1' & HR1' & Hv1).
      destruct (Reset_limit_value o1 it1 q u Hq1 Hu1 Hwf1 Ho1) as (it2' & HR2' & Hv2).
      rewrite HR1 in HR1'. rewrite HR2 in HR2'. simplify_eq.
      rewrite (Hv1 k), (Hv2 k) by done. by rewrite Hact, Hp1.
    - apply last_None in Hlast. subst o1.
      unfold visit_order in Ho1. symmetry in Ho1.
      apply Permutation_nil_r, fmap_nil_inv, map_to_list_empty_iff in Ho1.
      rewrite Ho1, map_size_empty in Hlen1, Hlen2.
      apply nil_length_inv in Hlen1, Hlen2. subst new1 new2.
      rewrite app_nil_r in Hobj1, Hobj2.
      unfold limit_value. rewrite Hlim2, Hlim1, Hobj2. done. }
  split; [done|]. intros s n.
  apply Nexts_same_decisions; [|done].
  apply same_evaluation_set_source.
  unfold same_evaluation. repeat split; congruence.
Qed.

(** C3, as amended: [Reset] does not look at the number of limits.  Also
    when the usage holds no limit or more than one, it returns, logs
    nothing and leaves enforcement on; with no limit the cached applicable
    limit stays as it was, and with several it is the limit of the entry
    that the loop visits last. *)
Theorem Reset_does_not_check_limits (order : list string) (it : QuotaIterator S)
    (q : QuotaSpec) (u : QuotaUsage) :
  quota it = Some q -> actUsage it = Some u ->
  usage_wf (Objects (ctx it)) u ->
  visit_order (Used u) order ->
  exists it',
    Reset order it = Ok it' /\
    Logger (ctx it') = Logger (ctx it) /\
    quota it' = Some q /\ buildErr it' = buildErr it /\
    quotaLimits it' = quotaLimits it /\
    (Used u = ∅ -> proposedLimit it' = proposedLimit it) /\
    (forall k, last order = Some k ->
       limit_value it'
         = projection (usage_view (Objects (ctx it)) u) (CtxPlan (ctx it)) !! k).
Proof.
  intros Hq Hu Hwf Hord.
  destruct (Reset_spec order it q u Hq Hu Hwf)
    as (it' & pu & new & HR & _ & He & _ & _ & Hq' & Hl & _ & _ & _
        & Hlog & _ & _ & _ & _ & _ & Hkeys & _ & Hlim).
  destruct (Reset_limit_value order it q u Hq Hu Hwf Hord) as (it'' & HR' & Hv).
  rewrite HR in HR'. simplify_eq.
  exists it''. repeat split; try done; try congruence.
  intros Hempty. rewrite Hlim.
  assert (Hvis : visited (Used pu) order = []).
  { unfold visit_order in Hord. rewrite Hempty, map_to_list_empty in Hord.
    apply Permutation_nil_r in Hord. by subst order. }
  by rewrite Hvis.
Qed.

End Projection.

(** ** The scenarios of the specification *)

Section Scenarios.
Context {S : Type} `{FeasibleIterator S}.

Lemma scenario_SetJob (s : S) :
  SetJob scenario_job (NewQuotaIterator scenario_ctx s) =
  mkQuotaIterator scenario_ctx s None None (Some scenario_job)
    (Some scenario_spec) (Some (LimitsMap scenario_spec)) (Some scenario_usage)
    None None.
Proof. reflexivity. Qed.

Lemma scenario_usage_wf : usage_wf (Objects scenario_ctx) scenario_usage.
Proof.
  intros k a Hk. simpl in Hk.
  apply lookup_singleton_Some in Hk as [_ <-]. by eexists.
Qed.

Lemma scenario_order (order : list string) :
  visit_order (Used scenario_usage) order -> order = ["h"].
Proof.
  unfold visit_order.
  replace ((map_to_list (Used scenario_usage)).*1) with ["h"]
    by (vm_compute; reflexivity).
  apply Permutation_singleton_r.
Qed.

(** C1: limit {CPU:1000}, actual usage {CPU:400}, a plan that contributes
    {CPU:200}.  After [Reset], [Next] returns the candidate of the source
    for a footprint of {CPU:300}; for a footprint of {CPU:500} it returns
    no candidate and reports the dimension CPU to the metrics sink (and
    the quota to the eligibility tracker). *)
Theorem scenario_accept_reject (s s' : S) (n : Node) (order : list string)
    (tg_small tg_large : TaskGroup) :
  source_Next (source_Reset s) = (Some n, s') ->
  visit_order (Used scenario_usage) order ->
  combinedResources tg_small = cpu 300 ->
  combinedResources tg_large = cpu 500 ->
  let configured tg :=
    SetTaskGroup tg (SetJob scenario_job (NewQuotaIterator scenario_ctx s)) in
  (exists it it',
      Reset order (configured tg_small) = Ok it /\
      Next it = Ok (Some n, it') /\
      Metrics (ctx it') = [] /\ Eligibility (ctx it') = []) /\
  (exists it it',
      Reset order (configured tg_large) = Ok it /\
      Next it = Ok (None, it') /\
      Metrics (ctx it') = [[DimCPU]] /\ Eligibility (ctx it') = ["q"]).
Proof.
  intros Hn Hord Hsmall Hlarge configured.
  apply scenario_order in Hord as ->.
  assert (Hstep : forall tg r, combinedResources tg = r ->
    exists it, Reset ["h"] (configured tg) = Ok it /\
      source_Next (source it) = (Some n, s') /\
      quota it = Some scenario_spec /\ buildErr it = None /\
      quotaLimits it = Some (LimitsMap scenario_spec) /\
      iter_combinedResources it = Some r /\
      limit_value it = Some (mkQuotaLimit "global" (cpu 600) "h") /\
      Metrics (ctx it) = [] /\ Eligibility (ctx it) = []).
  { intros tg r Hr. unfold configured. rewrite scenario_SetJob.
    set (it0 := SetTaskGroup tg _).
    destruct (Reset_spec ["h"] it0 scenario_spec scenario_usage
                eq_refl eq_refl scenario_usage_wf)
      as (it & pu & new & HR & Hs & He & Hc & _ & Hq & Hl & _ & _ & _
          & _ & Hm & Hel & _).
    assert (Hord : visit_order (Used scenario_usage) ["h"]).
    { unfold visit_order. vm_compute. reflexivity. }
    destruct (Reset_limit_value ["h"] it0 scenario_spec scenario_usage
                eq_refl eq_refl scenario_usage_wf Hord)
      as (it1 & HR1 & Hv).
    rewrite HR in HR1. simplify_eq.
    exists it1. rewrite Hs, He, Hc, Hq, Hl, Hm, Hel, (Hv "h") by done.
    simpl. rewrite Hn. repeat split. exact HR. }
  split.
  - destruct (Hstep tg_small _ Hsmall)
      as (it & HR & Hsrc & Hq & He & Hl & Hc & Hv & Hm & Hel).
    eexists it, _. split; [done|].
    rewrite (Next_enforcing it n s' scenario_spec) by done.
    rewrite Hl, Hv, Hc. split; [reflexivity|].
    unfold with_copy, limit_value in *. simpl. rewrite Hv. done.
  - destruct (Hstep tg_large _ Hlarge)
      as (it & HR & Hsrc & Hq & He & Hl & Hc & Hv & Hm & Hel).
    eexists it, _. split; [done|].
    rewrite (Next_enforcing it n s' scenario_spec) by done.
    rewrite Hl, Hv, Hc. split; [reflexivity|].
    unfold with_copy, limit_value in *. simpl. rewrite Hv. simpl.
    by rewrite Hm, Hel.
Qed.

End Scenarios.

(** ** The theorems at work on the scenarios *)

Lemma scenario_accept_reject_witness :
  (exists it it',
      Reset ["h"] (scenario 300) = Ok it /\
      Next it = Ok (Some node1, it') /\
      Metrics (ctx it') = [] /\ Eligibility (ctx it') = []) /\
  (exists it it',
      Reset ["h"] (scenario 500) = Ok it /\
      Next it = Ok (None, it') /\
      Metrics (ctx it') = [[DimCPU]] /\ Eligibility (ctx it') = ["q"]).
Proof.
  apply (scenario_accept_reject (list_source [node1]) (mkListSource [node1] [])
           node1 ["h"] (scenario_tg 300) (scenario_tg 500)).
  - reflexivity.
  - unfold visit_order. vm_compute. reflexivity.
  - reflexivity.
  - reflexivity.
Defined.

Lemma resolution_failure_fails_open_witness :
  (exists e entry,
      buildErr missing_usage_iterator = Some e /\
      Logger (ctx missing_usage_iterator) = [] ++ [entry] /\
      LogLevelOf entry = LevelError /\ LogError entry = e) /\
  forall cs, exists it',
      run cs missing_usage_iterator
        = Ok ((run_source cs (list_source [node1])).1, it') /\
      Metrics (ctx it') = [] /\ Eligibility (ctx it') = [].
Proof.
  apply (resolution_failure_fails_open missing_usage_ctx (list_source [node1])
           scenario_job).
  apply (usage_fails _ _ (mkNamespace "default" "q") scenario_spec).
  - reflexivity.
  - discriminate.
  - reflexivity.
  - right. reflexivity.
Defined.

Lemma no_quota_passes_through_witness :
  buildErr no_quota_iterator = None /\ ctx no_quota_iterator = no_quota_ctx /\
  forall cs, exists it',
      run cs no_quota_iterator
        = Ok ((run_source cs (list_source [node1])).1, it') /\
      buildErr it' = None /\ Logger (ctx it') = [] /\
      Metrics (ctx it') = [] /\ Eligibility (ctx it') = [].
Proof.
  apply (no_quota_passes_through no_quota_ctx (list_source [node1]) scenario_job
           (mkNamespace "default" "")).
  - reflexivity.
  - reflexivity.
Defined.

Lemma empty_usage_passes_through_witness :
  buildErr empty_usage_iterator = None /\
  ctx empty_usage_iterator = empty_usage_ctx /\
  forall cs, exists it',
      run cs empty_usage_iterator
        = Ok ((run_source cs (list_source [node1])).1, it') /\
      buildErr it' = None /\ Logger (ctx it') = [] /\
      Metrics (ctx it') = [] /\ Eligibility (ctx it') = [].
Proof.
  apply (empty_usage_passes_through empty_usage_ctx (list_source [node1])
           scenario_job scenario_spec empty_usage).
  - exists (mkNamespace "default" "q"). repeat split. discriminate.
  - reflexivity.
Defined.

Lemma Next_copy_isolation_witness :
  Next (scenario_reset 500) = Ok (None, after_Next (scenario_reset 500)) /\
  limit_value (after_Next (scenario_reset 500)) = limit_value (scenario_reset 500) /\
  forall (s : ListSource) (n : nat),
    fst <$> Nexts n (set_source s (after_Next (scenario_reset 500)))
    = fst <$> Nexts n (set_source s (scenario_reset 500)).
Proof.
  assert (HN : Next (scenario_reset 500) = Ok (None, after_Next (scenario_reset 500))).
  { vm_compute. reflexivity. }
  split; [exact HN|].
  destruct (Next_copy_isolation _ _ _ HN) as (_ & _ & _ & _ & _ & _ & Hv & _ & Hn).
  split; [exact Hv | exact Hn].
Defined.

Lemma two_limits_wf : usage_wf (Objects (ctx two_limits)) two_limits_usage.
Proof.
  intros k a Hk. simpl in Hk.
  apply lookup_insert_Some in Hk as [[_ <-] | [_ Hk]]; [by eexists|].
  apply lookup_singleton_Some in Hk as [_ <-]. by eexists.
Qed.

Lemma two_limits_orders :
  visit_order (Used two_limits_usage) ["a"; "b"] /\
  visit_order (Used two_limits_usage) ["b"; "a"].
Proof.
  unfold visit_order.
  replace ((map_to_list (Used two_limits_usage)).*1) with ["a"; "b"]
    by (vm_compute; reflexivity).
  split; [reflexivity | apply Permutation_swap].
Qed.

Lemma Reset_twice_witness :
  exists it1 it2,
    Reset ["h"] (scenario 300) = Ok it1 /\ Reset ["h"] it1 = Ok it2 /\
    proposed_view it1
      = Some (projection (usage_view (Objects scenario_ctx) scenario_usage)
                [mkPlannedAlloc "h" (cpu 200)]) /\
    proposed_view it2 = proposed_view it1 /\
    limit_value it2 = limit_value it1 /\
    forall (s : ListSource) (n : nat),
      fst <$> Nexts n (set_source s it2) = fst <$> Nexts n (set_source s it1).
Proof.
  assert (Hord : visit_order (Used scenario_usage) ["h"]).
  { unfold visit_order. vm_compute. reflexivity. }
  destruct (Reset_twice ["h"] ["h"] (scenario 300) scenario_spec scenario_usage
              eq_refl eq_refl scenario_usage_wf Hord Hord)
    as (it1 & it2 & H1 & H2 & Hp1 & Hp2 & Hsame).
  destruct (Hsame (or_intror eq_refl)) as (Hv & Hn).
  exists it1, it2. repeat split; assumption.
Defined.

Lemma Reset_does_not_check_limits_witness :
  exists it',
    Reset ["a"; "b"] two_limits = Ok it' /\
    Logger (ctx it') = [] /\
    quota it' = Some two_limits_spec /\ buildErr it' = None /\
    limit_value it' = Some (mkQuotaLimit "west" (cpu 90) "b").
Proof.
  destruct (Reset_does_not_check_limits ["a"; "b"] two_limits two_limits_spec
              two_limits_usage eq_refl eq_refl two_limits_wf
              (proj1 two_limits_orders))
    as (it' & HR & Hlog & Hq & He & _ & _ & Hv).
  exists it'. repeat split; try assumption.
  rewrite (Hv "b" eq_refl). vm_compute. reflexivity.
Defined.

(** ** Where the code departs from the specification *)

(** Against C3: with two limits in the usage, [Reset] returns without
    logging anything and leaves the iterator enforcing; [Next] then rejects
    the candidate on the limit that the loop happened to visit last. *)
Lemma Reset_two_limits_is_no_error :
  size (Used two_limits_usage) = 2%nat /\
  visit_order (Used two_limits_usage) ["a"; "b"] /\
  Reset ["a"; "b"] two_limits = Ok two_limits_ab /\
  ~ treated_as_internal_error two_limits two_limits_ab /\
  Logger (ctx two_limits_ab) = [] /\
  quota two_limits_ab = Some two_limits_spec /\
  buildErr two_limits_ab = None /\
  fst <$> Next two_limits_ab = Ok None.
Proof.
  split; [vm_compute; reflexivity|].
  split; [apply two_limits_orders|].
  split; [vm_compute; reflexivity|].
  split.
  { intros [Hlog _]. vm_compute in Hlog. lia. }
  repeat split; vm_compute; reflexivity.
Qed.

(** Against C6: with two limits in the usage and no change of the plan,
    two calls of [Reset] in a row can cache different applicable limits,
    and [Next] then accepts a candidate after the first call that it
    rejects after the second. *)
Lemma Reset_twice_two_limits_differ :
  visit_order (Used two_limits_usage) ["b"; "a"] /\
  visit_order (Used two_limits_usage) ["a"; "b"] /\
  Reset ["b"; "a"] two_limits = Ok two_limits_ba /\
  Reset ["a"; "b"] two_limits_ba = Ok two_limits_ba_ab /\
  CtxPlan (ctx two_limits_ba) = CtxPlan (ctx two_limits) /\
  source two_limits_ba = source two_limits_ba_ab /\
  limit_value two_limits_ba <> limit_value two_limits_ba_ab /\
  fst <$> Next two_limits_ba = Ok (Some node1) /\
  fst <$> Next two_limits_ba_ab = Ok None.
Proof.
  split; [apply two_limits_orders|].
  split; [apply two_limits_orders|].
  split; [vm_compute; reflexivity|].
  split; [vm_compute; reflexivity|].
  split; [vm_compute; reflexivity|].
  split; [vm_compute; reflexivity|].
  split; [vm_compute; discriminate|].
  split; vm_compute; reflexivity.
Qed.

(** * Further properties of the iterator *)

(** ** Configuration: [SetJob] and [SetTaskGroup] *)

Section Configuration.
Context {S : Type} `{FeasibleIterator S}.

(** X1: [SetJob] always stores the job, also when the resolution fails,
    and writes to nothing but the resolution: the source, the stored
    footprint, Proposed Usage, the applicable limit, the state store, the
    plan, the metrics, the eligibility and the limit objects are as they
    were, and the log can only grow. *)
Theorem SetJob_frame (j : Job) (it : QuotaIterator S) :
  job (SetJob j it) = Some j /\
  source (SetJob j it) = source it /\
  iter_combinedResources (SetJob j it) = iter_combinedResources it /\
  proposedUsage (SetJob j it) = proposedUsage it /\
  proposedLimit (SetJob j it) = proposedLimit it /\
  State (ctx (SetJob j it)) = State (ctx it) /\
  CtxPlan (ctx (SetJob j it)) = CtxPlan (ctx it) /\
  Metrics (ctx (SetJob j it)) = Metrics (ctx it) /\
  Eligibility (ctx (SetJob j it)) = Eligibility (ctx it) /\
  Objects (ctx (SetJob j it)) = Objects (ctx it) /\
  exists entries, Logger (ctx (SetJob j it)) = Logger (ctx it) ++ entries.
Proof.
  unfold SetJob.
  set (it1 := set_job (Some j) it).
  assert (Hfail : forall msg e,
    let it' := fail_build msg e it1 in
    job it' = Some j /\ source it' = source it /\
    iter_combinedResources it' = iter_combinedResources it /\
    proposedUsage it' = proposedUsage it /\ proposedLimit it' = proposedLimit it /\
    State (ctx it') = State (ctx it) /\ CtxPlan (ctx it') = CtxPlan (ctx it) /\
    Metrics (ctx it') = Metrics (ctx it) /\
    Eligibility (ctx it') = Eligibility (ctx it) /\
    Objects (ctx it') = Objects (ctx it) /\
    exists entries, Logger (ctx it') = Logger (ctx it) ++ entries).
  { intros msg e. simpl. repeat split. by eexists. }
  assert (Hkeep : forall it', ctx it' = ctx it -> job it' = Some j ->
    source it' = source it ->
    iter_combinedResources it' = iter_combinedResources it ->
    proposedUsage it' = proposedUsage it -> proposedLimit it' = proposedLimit it ->
    job it' = Some j /\ source it' = source it /\
    iter_combinedResources it' = iter_combinedResources it /\
    proposedUsage it' = proposedUsage it /\ proposedLimit it' = proposedLimit it /\
    State (ctx it') = State (ctx it) /\ CtxPlan (ctx it') = CtxPlan (ctx it) /\
    Metrics (ctx it') = Metrics (ctx it) /\
    Eligibility (ctx it') = Eligibility (ctx it) /\
    Objects (ctx it') = Objects (ctx it) /\
    exists entries, Logger (ctx it') = Logger (ctx it) ++ entries).
  { intros it' -> ? ? ? ? ?. repeat split; try assumption.
    exists []. by rewrite app_nil_r. }
  destruct (NamespaceByName _ _) as [[ns|] [err|]]; try apply Hfail.
  destruct (decide _); [by apply Hkeep|].
  destruct (QuotaSpecByName _ _) as [[q|] [err|]]; try apply Hfail.
  destruct (QuotaUsageByName _ _) as [[u|] [err|]]; try apply Hfail.
  destruct (decide _); by apply Hkeep.
Qed.

(** X2: the two configuration calls commute: the iterator is the same
    whether the task group or the job is set first. *)
Theorem SetJob_SetTaskGroup_commute (j : Job) (tg : TaskGroup) (it : QuotaIterator S) :
  SetJob j (SetTaskGroup tg it) = SetTaskGroup tg (SetJob j it).
Proof.
  unfold SetJob. simpl.
  destruct (NamespaceByName _ _) as [[ns|] [err|]]; try reflexivity.
  destruct (decide _); [reflexivity|].
  destruct (QuotaSpecByName _ _) as [[q|] [err|]]; try reflexivity.
  destruct (QuotaUsageByName _ _) as [[u|] [err|]]; try reflexivity.
  by destruct (decide _).
Qed.

(** X3: the build error tells what went wrong: each error is recorded
    only when the lookup it names was reached and failed in the way it
    says, and it carries the names that were looked up. *)
Theorem buildErr_names_the_failure (c : Context) (s : S) (j : Job) (e : BuildError) :
  buildErr (SetJob j (NewQuotaIterator c s)) = Some e ->
  match e with
  | ErrNamespaceLookup id ns err =>
      id = JobID j /\ ns = JobNamespace j /\
      (NamespaceByName (State c) ns).2 = Some err
  | ErrUnknownNamespace ns id =>
      id = JobID j /\ ns = JobNamespace j /\
      NamespaceByName (State c) ns = (None, None)
  | ErrQuotaLookup name err =>
      exists n, NamespaceByName (State c) (JobNamespace j) = (Some n, None) /\
        NamespaceQuota n = name /\ name <> "" /\
        (QuotaSpecByName (State c) name).2 = Some err
  | ErrUnknownQuota name ns =>
      exists n, NamespaceByName (State c) (JobNamespace j) = (Some n, None) /\
        NamespaceQuota n = name /\ name <> "" /\ NamespaceName n = ns /\
        QuotaSpecByName (State c) name = (None, None)
  | ErrUsageLookup name err =>
      exists n q, NamespaceByName (State c) (JobNamespace j) = (Some n, None) /\
        NamespaceQuota n = name /\ name <> "" /\
        QuotaSpecByName (State c) name = (Some q, None) /\
        (QuotaUsageByName (State c) name).2 = Some err
  | ErrUnknownUsage name =>
      exists n q, NamespaceByName (State c) (JobNamespace j) = (Some n, None) /\
        NamespaceQuota n = name /\ name <> "" /\
        QuotaSpecByName (State c) name = (Some q, None) /\
        QuotaUsageByName (State c) name = (None, None)
  end.
Proof.
  unfold SetJob. simpl.
  destruct (NamespaceByName (State c) (JobNamespace j)) as [[ns|] [err|]] eqn:Hn;
    simpl; try (intros [= <-]; rewrite ?Hn; by repeat split).
  destruct (decide _) as [|Hne]; [done|].
  destruct (QuotaSpecByName (State c) (NamespaceQuota ns)) as [[q|] [err|]] eqn:Hs;
    simpl; try (intros [= <-]; exists ns; rewrite ?Hs; by repeat split).
  destruct (QuotaUsageByName (State c) (NamespaceQuota ns)) as [[u|] [err|]] eqn:Hu;
    simpl; try (intros [= <-]; exists ns, q; rewrite ?Hu; by repeat split).
  by destruct (decide _).
Qed.

End Configuration.

(** ** What [Next] returns and records *)

Section Outcomes.
Context {S : Type} `{FeasibleIterator S}.

Lemma with_copy_reports (it : QuotaIterator S) :
  Metrics (ctx (with_copy it)) = Metrics (ctx it) /\
  Eligibility (ctx (with_copy it)) = Eligibility (ctx it).
Proof. unfold with_copy. by destruct (limit_value it). Qed.

(** The two ways in which a call of [Next] can return. *)
Lemma Next_cases (it it' : QuotaIterator S) (o : option Node) :
  Next it = Ok (o, it') ->
  (o = (source_Next (source it)).1 /\
   Metrics (ctx it') = Metrics (ctx it) /\
   Eligibility (ctx it') = Eligibility (ctx it) /\
   ((source_Next (source it)).1 = None \/ quota it = None \/ buildErr it <> None \/
    exists d, verdict it = Ok (true, d)))
  \/
  (exists n q d,
     (source_Next (source it)).1 = Some n /\ quota it = Some q /\
     buildErr it = None /\ verdict it = Ok (false, d) /\ o = None /\
     Metrics (ctx it') = Metrics (ctx it) ++ [d] /\
     Eligibility (ctx it') = Eligibility (ctx it) ++ [QuotaName q]).
Proof.
  intros HN.
  destruct (source_Next (source it)) as [up s] eqn:Hn. simpl.
  assert (Hpass : up = None \/ quota it = None \/ buildErr it <> None ->
    o = up /\ Metrics (ctx it') = Metrics (ctx it) /\
    Eligibility (ctx it') = Eligibility (ctx it)).
  { intros Hp. rewrite (Next_pass it up s Hn Hp) in HN. by simplify_eq. }
  destruct up as [n|]; [|left; destruct Hpass as (?&?&?); auto 10].
  destruct (quota it) as [q|] eqn:Hq; [|left; destruct Hpass as (?&?&?); auto 10].
  destruct (buildErr it) as [e|] eqn:He;
    [left; destruct Hpass as (?&?&?); auto 10|].
  clear Hpass. rewrite (Next_enforcing it n s q Hn Hq He) in HN.
  fold (verdict it) in HN.
  destruct (with_copy_reports (set_source s it)) as [Hm Hel].
  destruct (verdict it) as [[[] d]|]; [| |done]; cbv zeta in HN;
    injection HN as <- <-.
  - left. repeat split; try done. right; right; right. by exists d.
  - right. exists n, q, d.
    cbn [set_ctx ctx SetQuotaLimitReached ExhaustQuota Metrics Eligibility].
    rewrite Hm, Hel. by repeat split.
Qed.

Lemma verdict_Next (it it' : QuotaIterator S) (o : option Node) :
  Next it = Ok (o, it') ->
  verdict it' = verdict it /\ quota it' = quota it /\ buildErr it' = buildErr it.
Proof.
  intros HN. apply same_evaluation_Next in HN as (Hq & He & Hl & Hr & Hv).
  unfold verdict. by rewrite <- Hq, <- He, <- Hl, <- Hr, <- Hv.
Qed.

Lemma run_source_Nexts_S (n : nat) (s : S) :
  (run_source (replicate (Datatypes.S n) CallNext) s).1
  = (source_Next s).1 :: (run_source (replicate n CallNext) (source_Next s).2).1.
Proof.
  simpl. destruct (source_Next s) as [o s']. simpl.
  by destruct (run_source (replicate n CallNext) s').
Qed.

Lemma Nexts_S_inv (n : nat) (it it' : QuotaIterator S) (os : list (option Node)) :
  Nexts (Datatypes.S n) it = Ok (os, it') ->
  exists o it1 os1,
    Next it = Ok (o, it1) /\ Nexts n it1 = Ok (os1, it') /\ os = o :: os1 /\
    source it1 = (source_Next (source it)).2.
Proof.
  rewrite Nexts_S. intros HN.
  destruct (Next it) as [[o it1]|] eqn:H1; [|done]. simpl in HN.
  destruct (Nexts n it1) as [[os1 it2]|] eqn:H2; [|done]. simpl in HN.
  pose proof (Next_preserves _ _ _ H1) as (Hs & _).
  injection HN as <- <-. by exists o, it1, os1.
Qed.

(** While no limit is exceeded, every candidate of the source is returned
    and nothing is recorded. *)
Lemma Nexts_accepting (n : nat) (it it' : QuotaIterator S) (os : list (option Node)) :
  quota it = None \/ buildErr it <> None \/ (exists d, verdict it = Ok (true, d)) ->
  Nexts n it = Ok (os, it') ->
  os = (run_source (replicate n CallNext) (source it)).1 /\
  Metrics (ctx it') = Metrics (ctx it) /\
  Eligibility (ctx it') = Eligibility (ctx it).
Proof.
  revert it os. induction n as [|n IH]; intros it os Hacc HN.
  - unfold Nexts in HN. simpl in HN. by simplify_eq.
  - apply Nexts_S_inv in HN as (o & it1 & os1 & H1 & H2 & -> & Hs).
    destruct (verdict_Next _ _ _ H1) as (Hv & Hq & He).
    apply IH in H2 as (-> & Hm & Hel).
    2:{ rewrite Hv, Hq, He. exact Hacc. }
    rewrite run_source_Nexts_S, Hs, Hm, Hel.
    destruct (Next_cases _ _ _ H1) as [(-> & Hm1 & Hel1 & _) | Hrej]; [done|].
    destruct Hrej as (m & q & d & _ & Hq' & He' & Hv' & _).
    destruct Hacc as [Hacc | [Hacc | [d' Hacc]]]; congruence.
Qed.

(** While a limit is exceeded, no candidate is returned, and every
    candidate of the source is recorded once, with the same dimensions. *)
Lemma Nexts_rejecting (n : nat) (it it' : QuotaIterator S) (os : list (option Node))
    (q : QuotaSpec) (d : list Dimension) :
  quota it = Some q -> buildErr it = None -> verdict it = Ok (false, d) ->
  Nexts n it = Ok (os, it') ->
  let ups := (run_source (replicate n CallNext) (source it)).1 in
  os = replicate n None /\
  Metrics (ctx it') = Metrics (ctx it) ++ replicate (candidates ups) d /\
  Eligibility (ctx it') = Eligibility (ctx it) ++ replicate (candidates ups) (QuotaName q).
Proof.
  revert it os. induction n as [|n IH]; intros it os Hq He Hv HN.
  - unfold Nexts in HN. simpl in HN. simplify_eq. simpl.
    by rewrite !app_nil_r.
  - apply Nexts_S_inv in HN as (o & it1 & os1 & H1 & H2 & -> & Hs).
    destruct (verdict_Next _ _ _ H1) as (Hv1 & Hq1 & He1).
    apply IH in H2 as (-> & Hm & Hel); [|congruence..].
    cbv zeta in *. rewrite run_source_Nexts_S, Hm, Hel, Hs.
    destruct (Next_cases _ _ _ H1)
      as [(-> & Hm1 & Hel1 & Hwhy) | (m & q' & d' & Hup & Hq' & _ & Hv' & -> & Hm1 & Hel1)].
    + destruct Hwhy as [Hup | [? | [? | [d' ?]]]]; try congruence.
      rewrite Hup, Hm1, Hel1. done.
    + rewrite Hup, Hm1, Hel1. rewrite Hv in Hv'. injection Hv' as <-.
      rewrite Hq in Hq'. injection Hq' as <-.
      unfold candidates. simpl. rewrite <- !app_assoc. done.
Qed.

(** An iterator whose evaluation would panic returns only as long as the
    source has no candidate. *)
Lemma Nexts_panicking (n : nat) (it it' : QuotaIterator S) (os : list (option Node))
    (q : QuotaSpec) :
  quota it = Some q -> buildErr it = None -> verdict it = Panic ->
  Nexts n it = Ok (os, it') ->
  os = (run_source (replicate n CallNext) (source it)).1 /\
  os = replicate n None /\
  Metrics (ctx it') = Metrics (ctx it) /\
  Eligibility (ctx it') = Eligibility (ctx it).
Proof.
  revert it os. induction n as [|n IH]; intros it os Hq He Hv HN.
  - unfold Nexts in HN. simpl in HN. by simplify_eq.
  - apply Nexts_S_inv in HN as (o & it1 & os1 & H1 & H2 & -> & Hs).
    destruct (verdict_Next _ _ _ H1) as (Hv1 & Hq1 & He1).
    apply IH in H2 as (Hups & -> & Hm & Hel); [|congruence..].
    rewrite run_source_Nexts_S, <- Hs, <- Hups, Hm, Hel.
    destruct (Next_cases _ _ _ H1)
      as [(-> & Hm1 & Hel1 & Hwhy) | (m & q' & d' & _ & _ & _ & Hv' & _)];
      [|congruence].
    destruct Hwhy as [Hup | [? | [? | [d' ?]]]]; try congruence.
    by rewrite Hup.
Qed.

(** In pass-through mode any number of calls returns, with the
    candidates of the source. *)
Lemma Nexts_pass (n : nat) (it : QuotaIterator S) :
  quota it = None \/ buildErr it <> None ->
  exists it',
    Nexts n it = Ok ((run_source (replicate n CallNext) (source it)).1, it').
Proof.
  revert it. induction n as [|n IH]; intros it Hp.
  - by exists it.
  - rewrite Nexts_S, run_source_Nexts_S.
    destruct (source_Next (source it)) as [up s] eqn:Hn.
    rewrite (Next_pass it up s Hn) by auto. simpl.
    destruct (IH (set_source s it) Hp) as (it' & ->). simpl. by exists it'.
Qed.

Lemma SetJob_source (j : Job) (it : QuotaIterator S) :
  source (SetJob j it) = source it.
Proof.
  unfold SetJob.
  destruct (NamespaceByName _ _) as [[ns|] [err|]]; try done.
  destruct (decide _); [done|].
  destruct (QuotaSpecByName _ _) as [[q|] [err|]]; try done.
  destruct (QuotaUsageByName _ _) as [[u|] [err|]]; try done.
  by destruct (decide _).
Qed.

Lemma SetJob_keeps_buildErr (j : Job) (it : QuotaIterator S) :
  is_Some (buildErr it) -> is_Some (buildErr (SetJob j it)).
Proof.
  intros He. unfold SetJob.
  destruct (NamespaceByName _ _) as [[ns|] [err|]]; try by eexists.
  destruct (decide _); [done|].
  destruct (QuotaSpecByName _ _) as [[q|] [err|]]; try by eexists.
  destruct (QuotaUsageByName _ _) as [[u|] [err|]]; try by eexists.
  by destruct (decide _).
Qed.

(** X4: a build error is never cleared.  On an iterator that carries one,
    a later [SetJob] leaves it in place even when every lookup succeeds, so
    [Next] keeps returning the candidates of the source. *)
Theorem buildErr_is_never_cleared (j : Job) (it : QuotaIterator S) (n : nat) :
  is_Some (buildErr it) ->
  is_Some (buildErr (SetJob j it)) /\
  exists it',
    Nexts n (SetJob j it)
    = Ok ((run_source (replicate n CallNext) (source it)).1, it').
Proof.
  intros He. apply (SetJob_keeps_buildErr j) in He. split; [done|].
  destruct (Nexts_pass n (SetJob j it)) as (it' & HN).
  - right. by destruct He as [e ->].
  - exists it'. by rewrite HN, SetJob_source.
Qed.


(** X7: a call of [Next] that returns consumes exactly one candidate of
    the source, and returns that candidate or none.  When it returns the
    source's candidate it records nothing; when it drops a candidate it
    makes one [ExhaustQuota] call and one [SetQuotaLimitReached] call, with
    the name of the quota. *)
Theorem Next_outcome (it it' : QuotaIterator S) (o : option Node) :
  Next it = Ok (o, it') ->
  source it' = (source_Next (source it)).2 /\
  ((o = (source_Next (source it)).1 /\
    Metrics (ctx it') = Metrics (ctx it) /\
    Eligibility (ctx it') = Eligibility (ctx it))
   \/
   (exists n q d,
      (source_Next (source it)).1 = Some n /\ o = None /\ quota it = Some q /\
      Metrics (ctx it') = Metrics (ctx it) ++ [d] /\
      Eligibility (ctx it') = Eligibility (ctx it) ++ [QuotaName q])).
Proof.
  intros HN. split; [by apply Next_preserves in HN as (? & _)|].
  destruct (Next_cases _ _ _ HN)
    as [(? & ? & ? & _) | (n & q & d & ? & ? & _ & _ & ? & ? & ?)].
  - by left.
  - right. by exists n, q, d.
Qed.

(** X8: the decision does not depend on the node.  Between two calls of
    [Reset], either every candidate of the source is returned and nothing
    is recorded, or no candidate is returned and each one is recorded
    once, always with the same dimensions and the same quota name. *)
Theorem Nexts_all_or_nothing (n : nat) (it it' : QuotaIterator S)
    (os : list (option Node)) :
  Nexts n it = Ok (os, it') ->
  let ups := (run_source (replicate n CallNext) (source it)).1 in
  (os = ups /\
   Metrics (ctx it') = Metrics (ctx it) /\
   Eligibility (ctx it') = Eligibility (ctx it))
  \/
  (exists q d,
     quota it = Some q /\ os = replicate n None /\
     Metrics (ctx it') = Metrics (ctx it) ++ replicate (candidates ups) d /\
     Eligibility (ctx it')
       = Eligibility (ctx it) ++ replicate (candidates ups) (QuotaName q)).
Proof.
  intros HN ups.
  destruct (quota it) as [q|] eqn:Hq;
    [|left; apply (Nexts_accepting n it it' os); auto].
  destruct (buildErr it) as [e|] eqn:He;
    [left; apply (Nexts_accepting n it it' os); auto; right; left; congruence|].
  destruct (verdict it) as [[[] d]|] eqn:Hv.
  - left. apply (Nexts_accepting n it it' os); eauto.
  - right. exists q, d. split; [done|].
    by apply (Nexts_rejecting n it it' os q d).
  - left. destruct (Nexts_panicking n it it' os q Hq He Hv HN) as (? & _ & ? & ?).
    done.
Qed.

End Outcomes.

(** ** Whole call sequences *)

Section Sequences.
Context {S : Type} `{FeasibleIterator S}.

(** A [Reset] that returns on an enforcing iterator found every limit of
    Actual Usage in the heap. *)
Lemma Reset_Ok_wf (order : list string) (it it' : QuotaIterator S) (q : QuotaSpec) :
  quota it = Some q -> Reset order it = Ok it' ->
  exists u, actUsage it = Some u /\ usage_wf (Objects (ctx it)) u.
Proof.
  intros Hq. unfold Reset. simpl. rewrite Hq.
  destruct (actUsage it) as [u|]; [|done].
  unfold QuotaUsage_Copy.
  destruct (mapM _ _) as [vs|] eqn:Hm; [|done].
  intros _. exists u. split; [done|]. intros k a Hk.
  apply mapM_Some in Hm.
  apply elem_of_map_to_list, list_elem_of_lookup in Hk as (i & Hi).
  destruct (Forall2_lookup_l _ _ _ _ _ Hm Hi) as (v & _ & Hv).
  by exists v.
Qed.

Lemma Reset_frame (order : list string) (it it' : QuotaIterator S) :
  Reset order it = Ok it' ->
  job it' = job it /\ quota it' = quota it /\ quotaLimits it' = quotaLimits it /\
  actUsage it' = actUsage it /\ buildErr it' = buildErr it /\
  iter_combinedResources it' = iter_combinedResources it /\
  State (ctx it') = State (ctx it) /\ CtxPlan (ctx it') = CtxPlan (ctx it) /\
  Logger (ctx it') = Logger (ctx it) /\
  Metrics (ctx it') = Metrics (ctx it) /\
  Eligibility (ctx it') = Eligibility (ctx it) /\
  exists new, Objects (ctx it') = Objects (ctx it) ++ new.
Proof.
  intros HR. destruct (quota it) as [q|] eqn:Hq.
  - destruct (Reset_Ok_wf order it it' q Hq HR) as (u & Hu & Hwf).
    destruct (Reset_spec order it q u Hq Hu Hwf)
      as (it1 & pu & new & HR1 & _ & He & Hc & Hj & Hq1 & Hl & Hu1 & Hst & Hp
          & Hlog & Hm & Hel & Hobj & _).
    rewrite HR in HR1. injection HR1 as <-.
    rewrite Hq in Hq1. repeat split; try done. by exists new.
  - rewrite Reset_no_quota in HR by done. injection HR as <-.
    repeat split; try done. exists []. simpl. by rewrite app_nil_r.
Qed.

(** What no sequence of calls changes. *)
Lemma run_frame (cs : list Call) (it it' : QuotaIterator S) (os : list (option Node)) :
  run cs it = Ok (os, it') ->
  job it' = job it /\ quota it' = quota it /\ quotaLimits it' = quotaLimits it /\
  actUsage it' = actUsage it /\ buildErr it' = buildErr it /\
  State (ctx it') = State (ctx it) /\ Logger (ctx it') = Logger (ctx it) /\
  exists new, Objects (ctx it') = Objects (ctx it) ++ new.
Proof.
  revert it os. induction cs as [|c cs IH]; intros it os HR; simpl in HR.
  - injection HR as <- <-. repeat split. exists []. by rewrite app_nil_r.
  - destruct c as [|order|tg|p].
    + destruct (Next it) as [[o it1]|] eqn:H1; [|done]. simpl in HR.
      destruct (run cs it1) as [[os1 it2]|] eqn:H2; [|done]. simpl in HR.
      injection HR as <- <-.
      apply IH in H2 as (Hj & Hq & Hl & Hu & He & Hst & Hlog & new2 & Hobj2).
      apply Next_preserves in H1
        as (_ & He1 & _ & Hj1 & Hq1 & Hl1 & Hu1 & _ & _ & Hst1 & _ & Hlog1 & _
            & new1 & Hobj1).
      repeat split; try congruence.
      exists (new1 ++ new2). by rewrite Hobj2, Hobj1, app_assoc.
    + destruct (Reset order it) as [it1|] eqn:H1; [|done]. simpl in HR.
      apply IH in HR as (Hj & Hq & Hl & Hu & He & Hst & Hlog & new2 & Hobj2).
      apply Reset_frame in H1
        as (Hj1 & Hq1 & Hl1 & Hu1 & He1 & _ & Hst1 & _ & Hlog1 & _ & _ & new1 & Hobj1).
      repeat split; try congruence.
      exists (new1 ++ new2). by rewrite Hobj2, Hobj1, app_assoc.
    + apply IH in HR as (Hj & Hq & Hl & Hu & He & Hst & Hlog & new & Hobj).
      repeat split; try done. by exists new.
    + apply IH in HR as (Hj & Hq & Hl & Hu & He & Hst & Hlog & new & Hobj).
      repeat split; try done. by exists new.
Qed.

(** X9: once configured, the resolution is frozen: no sequence of [Next],
    [Reset] and [SetTaskGroup] calls and plan changes alters the job, the
    quota, the limit map, Actual Usage or the build error, and none of
    them logs anything. *)
Theorem run_keeps_resolution (cs : list Call) (it it' : QuotaIterator S)
    (os : list (option Node)) :
  run cs it = Ok (os, it') ->
  job it' = job it /\ quota it' = quota it /\ quotaLimits it' = quotaLimits it /\
  actUsage it' = actUsage it /\ buildErr it' = buildErr it /\
  State (ctx it') = State (ctx it) /\ Logger (ctx it') = Logger (ctx it).
Proof.
  intros HR.
  apply run_frame in HR as (Hj & Hq & Hl & Hu & He & Hst & Hlog & _).
  by repeat split.
Qed.

(** X10: no sequence of calls writes to a limit object that existed
    before it: objects are only added, so every usage record that was in
    the heap, Actual Usage among them, reads as it did. *)
Theorem run_never_overwrites (cs : list Call) (it it' : QuotaIterator S)
    (os : list (option Node)) :
  run cs it = Ok (os, it') ->
  (exists new, Objects (ctx it') = Objects (ctx it) ++ new) /\
  forall u, usage_wf (Objects (ctx it)) u ->
    usage_view (Objects (ctx it')) u = usage_view (Objects (ctx it)) u.
Proof.
  intros HR.
  apply run_frame in HR as (_ & _ & _ & _ & _ & _ & _ & new & Hobj).
  split; [by exists new|].
  intros u Hwf. rewrite Hobj. by apply usage_view_app.
Qed.

(** X11: [Reset] rebuilds Proposed Usage from Actual Usage and the plan of
    the moment.  Whatever was called before and whatever the plan was
    then, after a plan change and a [Reset] Proposed Usage is Actual Usage
    charged with the new plan, and the applicable limit is its entry for
    the key visited last. *)
Theorem Reset_rebuilds_from_actual (cs : list Call) (order : list string)
    (p : list PlannedAlloc) (it it1 : QuotaIterator S) (os : list (option Node))
    (q : QuotaSpec) (u : QuotaUsage) :
  quota it = Some q -> actUsage it = Some u ->
  usage_wf (Objects (ctx it)) u ->
  visit_order (Used u) order ->
  run cs it = Ok (os, it1) ->
  exists it2,
    Reset order (set_ctx (set_Plan p (ctx it1)) it1) = Ok it2 /\
    proposed_view it2 = Some (projection (usage_view (Objects (ctx it)) u) p) /\
    forall k, last order = Some k ->
      limit_value it2 = projection (usage_view (Objects (ctx it)) u) p !! k.
Proof.
  intros Hq Hu Hwf Hord HR.
  apply run_frame in HR as (_ & Hq1 & _ & Hu1 & _ & _ & _ & new & Hobj).
  set (it1' := set_ctx (set_Plan p (ctx it1)) it1).
  assert (Hq' : quota it1' = Some q) by (simpl; congruence).
  assert (Hu' : actUsage it1' = Some u) by (simpl; congruence).
  assert (Hwf' : usage_wf (Objects (ctx it1')) u).
  { intros k a Hk. destruct (Hwf k a Hk) as [v Hv]. exists v.
    simpl. rewrite Hobj. by apply lookup_app_l_Some. }
  assert (Hview : usage_view (Objects (ctx it1')) u = usage_view (Objects (ctx it)) u).
  { simpl. rewrite Hobj. by apply usage_view_app. }
  destruct (Reset_spec order it1' q u Hq' Hu' Hwf')
    as (it2 & pu & new2 & HR2 & _ & _ & _ & _ & _ & _ & _ & _ & _ & _ & _ & _
        & _ & _ & Hpu & _ & Hpv & _).
  destruct (Reset_limit_value order it1' q u Hq' Hu' Hwf' Hord) as (it2' & HR2' & Hlv).
  rewrite HR2 in HR2'. injection HR2' as <-.
  exists it2. split; [done|]. split.
  - unfold proposed_view. rewrite Hpu. simpl. by rewrite Hpv, Hview.
  - intros k Hk. rewrite (Hlv k Hk). by rewrite Hview.
Qed.






Lemma SetJob_enforcing_inv (c : Context) (s : S) (j : Job) (q : QuotaSpec) :
  quota (SetJob j (NewQuotaIterator c s)) = Some q ->
  exists u,
    resolves_to (State c) j q u /\ Used u <> ∅ /\
    actUsage (SetJob j (NewQuotaIterator c s)) = Some u /\
    quotaLimits (SetJob j (NewQuotaIterator c s)) = Some (LimitsMap q) /\
    ctx (SetJob j (NewQuotaIterator c s)) = c.
Proof.
  unfold SetJob. simpl.
  destruct (NamespaceByName (State c) (JobNamespace j)) as [[ns|] [err|]] eqn:Hn;
    try done.
  destruct (decide _) as [|Hne]; [done|].
  destruct (QuotaSpecByName (State c) (NamespaceQuota ns)) as [[q'|] [err|]] eqn:Hs;
    try done.
  destruct (QuotaUsageByName (State c) (NamespaceQuota ns)) as [[u|] [err|]] eqn:Hu;
    try done.
  destruct (decide _) as [|Hsize]; [done|].
  simpl. intros [= ->]. exists u. repeat split; try done.
  - by exists ns.
  - intros Hempty. apply Hsize. rewrite Hempty. apply map_size_empty.
Qed.


Lemma Reset_source (order : list string) (it it' : QuotaIterator S) :
  Reset order it = Ok it' -> source it' = source_Reset (source it).
Proof.
  intros HR. destruct (quota it) as [q|] eqn:Hq.
  - destruct (Reset_Ok_wf order it it' q Hq HR) as (u & Hu & Hwf).
    destruct (Reset_spec order it q u Hq Hu Hwf) as (it1 & pu & new & HR1 & Hs & _).
    rewrite HR in HR1. by injection HR1 as <-.
  - rewrite Reset_no_quota in HR by done. by injection HR as <-.
Qed.

(** X15: the iterator runs in lockstep with its source.  After any
    sequence of calls the source is in the state it would be in had the
    calls been made on it directly; every value returned is the source's
    candidate or none; and the metrics sink and the eligibility tracker
    have received exactly one call for every candidate that was dropped. *)
Theorem run_lockstep (cs : list Call) (it it' : QuotaIterator S)
    (os : list (option Node)) :
  run cs it = Ok (os, it') ->
  source it' = (run_source cs (source it)).2 /\
  Forall2 (fun o up => o = up \/ o = None) os (run_source cs (source it)).1 /\
  length (Metrics (ctx it'))
    = (length (Metrics (ctx it)) + dropped (run_source cs (source it)).1 os)%nat /\
  length (Eligibility (ctx it'))
    = (length (Eligibility (ctx it)) + dropped (run_source cs (source it)).1 os)%nat.
Proof.
  revert it os. induction cs as [|c cs IH]; intros it os HR; simpl in HR.
  - injection HR as <- <-. simpl. repeat split; [constructor|lia..].
  - destruct c as [|order|tg|p].
    + destruct (Next it) as [[o it1]|] eqn:H1; [|done]. simpl in HR.
      destruct (run cs it1) as [[os1 it2]|] eqn:H2; [|done]. simpl in HR.
      injection HR as <- <-.
      apply IH in H2 as (Hs & Hos & Hm & Hel).
      pose proof (Next_preserves _ _ _ H1) as (Hs1 & _).
      simpl. destruct (source_Next (source it)) as [up s] eqn:Hn.
      simpl in Hs1. rewrite Hs1 in Hs, Hos, Hm, Hel.
      destruct (run_source cs s) as [ups s'] eqn:Hrs. simpl in *.
      rewrite Hm, Hel.
      destruct (Next_cases _ _ _ H1)
        as [(-> & Hm1 & Hel1 & _) | (n & q & d & Hup & _ & _ & _ & -> & Hm1 & Hel1)];
        rewrite Hn in *; simpl in *.
      * rewrite Hm1, Hel1.
        split; [done|]. split; [constructor; auto|].
        destruct up; simpl; lia.
      * subst up. rewrite Hm1, Hel1, !length_app. simpl.
        split; [done|]. split; [constructor; auto|]. lia.
    + destruct (Reset order it) as [it1|] eqn:H1; [|done]. simpl in HR.
      apply IH in HR as (Hs & Hos & Hm & Hel).
      pose proof (Reset_source _ _ _ H1) as Hs1.
      apply Reset_frame in H1 as (_ & _ & _ & _ & _ & _ & _ & _ & _ & Hm1 & Hel1 & _).
      simpl. rewrite Hs1 in Hs, Hos, Hm, Hel. rewrite Hm1 in Hm. rewrite Hel1 in Hel.
      done.
    + by apply IH in HR.
    + by apply IH in HR.
Qed.

(** X16: after [SetJob] on a new iterator a quota is enforced exactly when
    the namespace names a quota, the three lookups succeed, and the usage
    record holds at least one limit. *)
Theorem enforcing_iff_resolved (c : Context) (s : S) (j : Job) (q : QuotaSpec) :
  quota (SetJob j (NewQuotaIterator c s)) = Some q <->
  exists u, resolves_to (State c) j q u /\ Used u <> ∅.
Proof.
  split.
  - intros Hq. destruct (SetJob_enforcing_inv c s j q Hq) as (u & Hr & Hne & _).
    by exists u.
  - intros (u & (ns & Hn & Hne & Hs & Hu) & Hused).
    unfold SetJob. simpl. rewrite Hn. rewrite decide_False by done.
    rewrite Hs, Hu. rewrite decide_False; [done|].
    intros Hsize. by apply map_size_empty_iff in Hsize.
Qed.

End Sequences.

(** ** The footprint and the unconfigured iterator *)

Lemma requested_Permutation (dim : Resources -> Z) (ts1 ts2 : list Task) :
  ts1 ≡ₚ ts2 -> requested dim ts1 = requested dim ts2.
Proof.
  induction 1 as [|t ts1 ts2 _ IH|t1 t2 ts|ts1 ts2 ts3 _ IH1 _ IH2]; simpl.
  - reflexivity.
  - by rewrite IH.
  - lia.
  - congruence.
Qed.

(** X13: the footprint of a task group does not depend on the order of
    its tasks. *)
Theorem combinedResources_task_order (tg1 tg2 : TaskGroup) :
  Tasks tg1 ≡ₚ Tasks tg2 ->
  SizeMB (TGEphemeralDisk tg1) = SizeMB (TGEphemeralDisk tg2) ->
  combinedResources tg1 = combinedResources tg2.
Proof.
  intros Hperm Hdisk. unfold combinedResources.
  pose proof (fold_Add_dim (Tasks tg1)
    {| CPU := 0; MemoryMB := 0; DiskMB := SizeMB (TGEphemeralDisk tg1);
       NetworkMBits := 0 |}) as H1.
  pose proof (fold_Add_dim (Tasks tg2)
    {| CPU := 0; MemoryMB := 0; DiskMB := SizeMB (TGEphemeralDisk tg2);
       NetworkMBits := 0 |}) as H2.
  cbv zeta in H1, H2.
  destruct (fold_left _ (Tasks tg1) _) as [c1 m1 d1 n1].
  destruct (fold_left _ (Tasks tg2) _) as [c2 m2 d2 n2].
  simpl in H1, H2.
  destruct H1 as (-> & -> & -> & ->). destruct H2 as (-> & -> & -> & ->).
  rewrite Hdisk.
  by rewrite !(requested_Permutation _ _ _ Hperm).
Qed.

(** X14: an iterator on which [SetJob] was never called filters nothing:
    whatever is called on it, it returns the candidates of its source,
    records and logs nothing, and stays without a quota. *)
Theorem unconfigured_is_transparent (S : Type) `{FeasibleIterator S}
    (c : Context) (s : S) (cs : list Call) :
  exists it',
    run cs (NewQuotaIterator c s) = Ok ((run_source cs s).1, it') /\
    quota it' = None /\ buildErr it' = None /\
    Logger (ctx it') = Logger c /\ Metrics (ctx it') = Metrics c /\
    Eligibility (ctx it') = Eligibility c.
Proof.
  destruct (run_no_quota cs (NewQuotaIterator c s) eq_refl)
    as (it' & HR & _ & Hlog & Hm & Hel & He & Hq).
  by exists it'.
Qed.

(** ** The further properties at work on the scenarios *)

Lemma buildErr_names_the_failure_witness :
  buildErr missing_usage_iterator = Some (ErrUnknownUsage "q") /\
  exists n q,
    NamespaceByName (State missing_usage_ctx) "default" = (Some n, None) /\
    NamespaceQuota n = "q" /\ "q" <> "" /\
    QuotaSpecByName (State missing_usage_ctx) "q" = (Some q, None) /\
    QuotaUsageByName (State missing_usage_ctx) "q" = (None, None).
Proof.
  split; [reflexivity|].
  apply (buildErr_names_the_failure missing_usage_ctx (list_source [node1])
           scenario_job (ErrUnknownUsage "q")).
  reflexivity.
Defined.

Lemma buildErr_is_never_cleared_witness :
  quota reconfigured_after_failure = Some scenario_spec /\
  is_Some (buildErr reconfigured_after_failure) /\
  exists it', Nexts 2 reconfigured_after_failure = Ok ([Some node1; None], it').
Proof.
  split; [reflexivity|].
  exact (buildErr_is_never_cleared second_job
           (set_ctx scenario_ctx missing_usage_iterator) 2
           (ex_intro _ (ErrUnknownUsage "q") eq_refl)).
Defined.


Lemma Next_outcome_witness :
  Next (scenario_reset 500) = Ok (None, after_Next (scenario_reset 500)) /\
  source (after_Next (scenario_reset 500)) = mkListSource [node1] [] /\
  Metrics (ctx (after_Next (scenario_reset 500))) = [[DimCPU]] /\
  Eligibility (ctx (after_Next (scenario_reset 500))) = ["q"].
Proof.
  assert (HN : Next (scenario_reset 500) = Ok (None, after_Next (scenario_reset 500))).
  { vm_compute. reflexivity. }
  split; [exact HN|].
  destruct (Next_outcome _ _ _ HN) as (Hs & _).
  split; [exact Hs|]. split; vm_compute; reflexivity.
Defined.

Lemma Nexts_all_or_nothing_witness :
  Nexts 3 (scenario_reset 500)
    = Ok ([None; None; None], after_run (replicate 3 CallNext) (scenario_reset 500)) /\
  Metrics (ctx (after_run (replicate 3 CallNext) (scenario_reset 500)))
    = [[DimCPU]] /\
  Eligibility (ctx (after_run (replicate 3 CallNext) (scenario_reset 500))) = ["q"].
Proof.
  assert (HN : Nexts 3 (scenario_reset 500)
    = Ok ([None; None; None], after_run (replicate 3 CallNext) (scenario_reset 500))).
  { vm_compute. reflexivity. }
  split; [exact HN|].
  destruct (Nexts_all_or_nothing _ _ _ _ HN) as [(Hos & _) | _].
  - vm_compute in Hos. discriminate.
  - split; vm_compute; reflexivity.
Defined.

Lemma run_keeps_resolution_witness :
  run two_passes (scenario 500)
    = Ok (returned two_passes (scenario 500), after_run two_passes (scenario 500)) /\
  returned two_passes (scenario 500) = [None; None; Some node1] /\
  quota (after_run two_passes (scenario 500)) = quota (scenario 500) /\
  actUsage (after_run two_passes (scenario 500)) = actUsage (scenario 500) /\
  buildErr (after_run two_passes (scenario 500)) = buildErr (scenario 500) /\
  Logger (ctx (after_run two_passes (scenario 500))) = [].
Proof.
  assert (HR : run two_passes (scenario 500)
    = Ok (returned two_passes (scenario 500), after_run two_passes (scenario 500))).
  { vm_compute. reflexivity. }
  split; [exact HR|]. split; [vm_compute; reflexivity|].
  destruct (run_keeps_resolution _ _ _ _ HR) as (_ & Hq & _ & Hu & He & _ & Hlog).
  repeat split; assumption.
Defined.

Lemma run_never_overwrites_witness :
  run two_passes (scenario 500)
    = Ok (returned two_passes (scenario 500), after_run two_passes (scenario 500)) /\
  usage_view (Objects (ctx (after_run two_passes (scenario 500)))) scenario_usage
    = usage_view (Objects scenario_ctx) scenario_usage /\
  length (Objects (ctx (after_run two_passes (scenario 500)))) = 5%nat.
Proof.
  assert (HR : run two_passes (scenario 500)
    = Ok (returned two_passes (scenario 500), after_run two_passes (scenario 500))).
  { vm_compute. reflexivity. }
  split; [exact HR|].
  destruct (run_never_overwrites _ _ _ _ HR) as (_ & Hview).
  split; [exact (Hview scenario_usage scenario_usage_wf)|].
  vm_compute. reflexivity.
Defined.

Lemma Reset_rebuilds_from_actual_witness :
  exists it2,
    Reset ["h"]
      (set_ctx (set_Plan [] (ctx (after_run two_passes (scenario 500))))
         (after_run two_passes (scenario 500))) = Ok it2 /\
    proposed_view it2
      = Some (projection (usage_view (Objects scenario_ctx) scenario_usage) []) /\
    limit_value it2 = Some (mkQuotaLimit "global" (cpu 400) "h").
Proof.
  assert (HR : run two_passes (scenario 500)
    = Ok (returned two_passes (scenario 500), after_run two_passes (scenario 500))).
  { vm_compute. reflexivity. }
  assert (Hord : visit_order (Used scenario_usage) ["h"]).
  { unfold visit_order. vm_compute. reflexivity. }
  destruct (Reset_rebuilds_from_actual two_passes ["h"] [] (scenario 500) _ _
              scenario_spec scenario_usage eq_refl eq_refl scenario_usage_wf Hord HR)
    as (it2 & HR2 & Hpv & Hlv).
  exists it2. split; [exact HR2|]. split; [exact Hpv|].
  rewrite (Hlv "h" eq_refl). vm_compute. reflexivity.
Defined.



Lemma combinedResources_task_order_witness :
  combinedResources tg_ab = combinedResources tg_ba.
Proof.
  apply combinedResources_task_order.
  - unfold tg_ab, tg_ba. simpl.
    change ([mkTask "a" (Some (cpu 100)); mkTask "b" None;
             mkTask "c" (Some (mkResources 5 64 20 1))])
      with ([mkTask "a" (Some (cpu 100)); mkTask "b" None]
              ++ [mkTask "c" (Some (mkResources 5 64 20 1))]).
    apply Permutation_app_comm.
  - reflexivity.
Defined.

Lemma run_lockstep_witness :
  run two_passes (scenario 500)
    = Ok (returned two_passes (scenario 500), after_run two_passes (scenario 500)) /\
  (run_source two_passes (list_source [node1])).1 = [Some node1; None; Some node1] /\
  returned two_passes (scenario 500) = [None; None; Some node1] /\
  source (after_run two_passes (scenario 500)) = mkListSource [node1] [] /\
  length (Metrics (ctx (after_run two_passes (scenario 500)))) = 1%nat /\
  length (Eligibility (ctx (after_run two_passes (scenario 500)))) = 1%nat.
Proof.
  assert (HR : run two_passes (scenario 500)
    = Ok (returned two_passes (scenario 500), after_run two_passes (scenario 500))).
  { vm_compute. reflexivity. }
  split; [exact HR|].
  split; [vm_compute; reflexivity|]. split; [vm_compute; reflexivity|].
  destruct (run_lockstep _ _ _ _ HR) as (Hs & _ & Hm & Hel).
  split; [exact Hs|]. split; [exact Hm | exact Hel].
Defined.

(** * [Next] on nil receivers *)

Section NilReceiver.
Context {S : Type} `{FeasibleIterator S}.
Variable nb : NilReceivers.

Lemma Next_on_pass (it : QuotaIterator S) (o : option Node) (s : S) :
  source_Next (source it) = (o, s) ->
  o = None \/ quota it = None \/ buildErr it <> None ->
  Next_on nb it = Ok (o, set_source s it).
Proof.
  intros Hn Hp. unfold Next_on. rewrite Hn. simpl.
  destruct o as [n|]; [|done].
  destruct (quota it) as [q|]; [|done].
  destruct (buildErr it) as [e|]; [done|].
  destruct Hp as [|[|]]; congruence.
Qed.

(** An enforcing [Next_on] computes [evaluate_on] on the values in the
    heap.  With no applicable limit it panics whatever [Copy] and
    [AddResource] do: at the call, or at the read of the field [Hash]. *)
Lemma Next_on_enforcing (it : QuotaIterator S) (n : Node) (s : S) (q : QuotaSpec) :
  source_Next (source it) = (Some n, s) ->
  quota it = Some q -> buildErr it = None ->
  Next_on nb it =
    match evaluate_on nb (quotaLimits it) (limit_value it) (iter_combinedResources it) with
    | Panic => Panic
    | Ok (true, _) => Ok (Some n, with_copy (set_source s it))
    | Ok (false, dimensions) =>
        let it' := with_copy (set_source s it) in
        Ok (None,
            set_ctx (SetQuotaLimitReached (QuotaName q)
                       (ExhaustQuota dimensions (ctx it'))) it')
    end.
Proof.
  intros Hn Hq He. unfold Next_on. rewrite Hn.
  cbn [set_source quota buildErr proposedLimit ctx iter_combinedResources quotaLimits].
  rewrite Hq, He.
  unfold with_copy, evaluate_on, limit_value.
  cbn [set_source quota buildErr proposedLimit ctx iter_combinedResources quotaLimits
       source job actUsage proposedUsage].
  destruct (proposedLimit it) as [a|] eqn:Hp; cbn [mbind option_bind].
  2:{ unfold Copy_on, AddResource_on.
      destruct (Copy_nil nb) as [[]|]; [|reflexivity]. cbn [mbind Result_bind].
      destruct (AddResource_nil nb) as [[]|]; reflexivity. }
  unfold Copy_on, QuotaLimit_Copy.
  destruct (Objects (ctx it) !! a) as [v|] eqn:Hv; [|reflexivity].
  cbn [mbind Result_bind].
  unfold AddResource_on, QuotaLimit_AddResource. rewrite heap_lookup_new.
  cbn [mbind Result_bind]. rewrite heap_insert_new.
  unfold QuotaLimit_Hash. rewrite heap_lookup_new.
  cbn [mbind Result_bind add_footprint Hash].
  unfold Superset_on, QuotaLimit_Superset.
  cbn [set_ctx set_source quotaLimits].
  rewrite heap_lookup_new.
  destruct (quotaLimits it ≫= _) as [ceiling|];
    cbn [mbind Result_bind add_footprint RegionLimit];
    unfold set_ctx, set_source; cbn; rewrite Hp.
  - destruct (bool_decide _); reflexivity.
  - destruct (Superset_nil nb _) as [[[] d]|]; reflexivity.
Qed.

(** Where [Next] returns, no method was called on a nil receiver, and
    [Next_on] returns the same whatever the methods would have done. *)
Lemma Next_on_agrees (it : QuotaIterator S) (r : option Node * QuotaIterator S) :
  Next it = Ok r -> Next_on nb it = Ok r.
Proof.
  destruct (source_Next (source it)) as [up s] eqn:Hn.
  assert (Hpass : up = None \/ quota it = None \/ buildErr it <> None ->
    Next it = Ok r -> Next_on nb it = Ok r).
  { intros Hp. by rewrite (Next_pass it up s Hn Hp), (Next_on_pass it up s Hn Hp). }
  destruct up as [n|]; [|auto].
  destruct (quota it) as [q|] eqn:Hq; [|auto].
  destruct (buildErr it) as [e|] eqn:He; [apply Hpass; right; right; congruence|].
  clear Hpass.
  rewrite (Next_enforcing it n s q Hn Hq He), (Next_on_enforcing it n s q Hn Hq He).
  unfold evaluate, evaluate_on.
  destruct (limit_value it) as [v|]; [|done]. simpl.
  by destruct (quotaLimits it ≫= _).
Qed.



End NilReceiver.

(** [Next] is [Next_on] for methods that read through their receiver. *)
Lemma Next_on_dereferencing {S : Type} `{FeasibleIterator S} (it : QuotaIterator S) :
  Next_on dereferencing it = Next it.
Proof.
  destruct (source_Next (source it)) as [up s] eqn:Hn.
  assert (Hpass : up = None \/ quota it = None \/ buildErr it <> None ->
    Next_on dereferencing it = Next it).
  { intros Hp.
    by rewrite (Next_pass it up s Hn Hp), (Next_on_pass dereferencing it up s Hn Hp). }
  destruct up as [n|]; [|auto].
  destruct (quota it) as [q|] eqn:Hq; [|auto].
  destruct (buildErr it) as [e|] eqn:He; [apply Hpass; right; right; congruence|].
  rewrite (Next_enforcing it n s q Hn Hq He).
  rewrite (Next_on_enforcing dereferencing it n s q Hn Hq He).
  unfold evaluate, evaluate_on.
  destruct (limit_value it) as [v|]; [|done]. simpl.
  by destruct (quotaLimits it ≫= _).
Qed.

